(** * The English/French dictionary lookup engine of [translator_api.py]

    A shallow embedding of the lookup engine (index construction, SEE
    cross-reference resolution, input cleaning, direct / lemma / reverse
    search and result normalisation) together with the properties the
    specification states about it.

    Conventions of the embedding.
    - A Python [str] is a [string]; a character is a code point below 256
      (the Latin-1 range, which [str.lower], [str.isspace] and the [re]
      character classes keep closed).  Code points above U+00FF are outside
      the model.
    - A [dict] is a [gmap string _], a [set] of strings a [gset string].
    - The [re] patterns of the source are written as data ([regex]) and run
      by a small backtracking matcher with Python's priorities (leftmost
      match, greedy or lazy repetition).
    - An exception is a value of [result]; the two lemmatizer backends are
      parameters of the request handler.
    - The recursion limit of the interpreter is taken up in
      [find_lines_limited], where the depth it leaves is a parameter; the
      request handler is modelled with the resolver that has the limit
      left out, which returns what the limited one returns whenever that
      one does. *)

From Stdlib Require Import Ascii NArith.
From stdpp Require Import prelude strings gmap.

Set Warnings "-clear-no-such-hyp".

(** ** Characters *)

Module Char.

Definition code (c : ascii) : N := N_of_ascii c.

(** [str.isspace] on one character, which is also the class [\s] of a
    [str] pattern. *)
Definition isspace (c : ascii) : bool :=
  let n := code c in
  ((9 <=? n) && (n <=? 13) || (28 <=? n) && (n <=? 32)
   || (n =? 133) || (n =? 160))%N.

(** [str.lower] on one character: A-Z and the Latin-1 capitals U+00C0 to
    U+00DE (the multiplication sign U+00D7 apart) move up by 32. *)
Definition lower (c : ascii) : ascii :=
  let n := code c in
  if ((65 <=? n) && (n <=? 90)
      || (192 <=? n) && (n <=? 222) && negb (n =? 215))%N
  then ascii_of_N (n + 32) else c.

(** The class [[a-zA-Z]]. *)
Definition is_ascii_letter (c : ascii) : bool :=
  let n := code c in
  ((65 <=? n) && (n <=? 90) || (97 <=? n) && (n <=? 122))%N.

Definition eqb (a b : ascii) : bool := Ascii.eqb a b.

(** A literal of a pattern compiled with [re.IGNORECASE]. *)
Definition eqb_ci (a b : ascii) : bool := Ascii.eqb (lower a) (lower b).

(** The class [.] without [re.DOTALL]: anything but a line feed. *)
Definition dot (c : ascii) : bool := negb (Ascii.eqb c "010"%char).

End Char.

Arguments Char.isspace : simpl nomatch.
Arguments Char.lower : simpl nomatch.
Arguments Char.is_ascii_letter : simpl nomatch.
Arguments Char.eqb : simpl nomatch.
Arguments Char.eqb_ci : simpl nomatch.
Arguments Char.dot : simpl nomatch.

(** ** Python string primitives *)

Module Str.

Fixpoint lower (s : string) : string :=
  match s with
  | "" => ""
  | String c r => String (Char.lower c) (lower r)
  end.

Fixpoint lstrip (s : string) : string :=
  match s with
  | "" => ""
  | String c r => if Char.isspace c then lstrip r else s
  end.

Fixpoint rstrip (s : string) : string :=
  match s with
  | "" => ""
  | String c r =>
      match rstrip r with
      | "" => if Char.isspace c then "" else String c ""
      | r' => String c r'
      end
  end.

(** [s.strip()] *)
Definition strip (s : string) : string := rstrip (lstrip s).

(** [s.startswith(p)] *)
Fixpoint startswith (s p : string) : bool :=
  match p, s with
  | "", _ => true
  | String a p', String b s' => Char.eqb a b && startswith s' p'
  | String _ _, "" => false
  end.

(** [s[n:]] *)
Fixpoint skip (n : nat) (s : string) : string :=
  match n, s with
  | 0, _ => s
  | S n', String _ r => skip n' r
  | S _, "" => ""
  end.

(** [s.split(sep, 1)] for a [sep] that occurs in [s]: the text before and
    after the first occurrence; [None] when [sep] does not occur (the
    split has then a single part). *)
Fixpoint split_once (sep s : string) : option (string * string) :=
  if startswith s sep then Some ("", skip (String.length sep) s)
  else match s with
       | "" => None
       | String c r =>
           match split_once sep r with
           | Some (a, b) => Some (String c a, b)
           | None => None
           end
       end.

(** [sub in s] *)
Definition contains (sub s : string) : bool :=
  bool_decide (is_Some (split_once sub s)).

Fixpoint existsb (f : ascii → bool) (s : string) : bool :=
  match s with
  | "" => false
  | String c r => f c || existsb f r
  end.

(** The truth value of a string: non-empty. *)
Definition truthy (s : string) : bool :=
  match s with "" => false | _ => true end.

End Str.

(** ** The fragment of [re] the program uses

    Every pattern of the source is a sequence of single-character classes,
    each taken once or under [*], [+] or the lazy [*?]. *)

Module Re.

Inductive quant := Once | Star | Plus | LazyStar.

Record atom := Atom { cls : ascii → bool; rep : quant }.

Definition regex := list atom.

(** A match: the text each atom consumed, in pattern order, and what is
    left of the subject. *)
Definition matched : Type := list string * string.

Definition piece (p : string) (m : option matched) : option matched :=
  match m with
  | Some (ps, rest) => Some (p :: ps, rest)
  | None => None
  end.

Definition grow (c : ascii) (m : option matched) : option matched :=
  match m with
  | Some (p :: ps, rest) => Some (String c p :: ps, rest)
  | _ => None
  end.

(** Greedy repetition: take the character if it is in the class and the
    rest of the pattern can still match, otherwise stop here. *)
Fixpoint greedy (f : ascii → bool) (k : string → option matched)
    (s : string) : option matched :=
  match s with
  | String c r =>
      if f c then
        match greedy f k r with
        | Some m => grow c (Some m)
        | None => piece "" (k s)
        end
      else piece "" (k s)
  | "" => piece "" (k "")
  end.

(** Lazy repetition: stop as soon as the rest of the pattern matches. *)
Fixpoint lazy (f : ascii → bool) (k : string → option matched)
    (s : string) : option matched :=
  match k s with
  | Some m => piece "" (Some m)
  | None =>
      match s with
      | String c r => if f c then grow c (lazy f k r) else None
      | "" => None
      end
  end.

(** The pattern matched at the start of the subject. *)
Fixpoint match_at (p : regex) (s : string) : option matched :=
  match p with
  | [] => Some ([], s)
  | Atom f q :: p' =>
      match q with
      | Once =>
          match s with
          | String c r =>
              if f c then piece (String c "") (match_at p' r) else None
          | "" => None
          end
      | Star => greedy f (match_at p') s
      | Plus =>
          match s with
          | String c r =>
              if f c then grow c (greedy f (match_at p') r) else None
          | "" => None
          end
      | LazyStar => lazy f (match_at p') s
      end
  end.

(** [re.match] *)
Definition rmatch (p : regex) (s : string) : option matched := match_at p s.

(** [re.search]: the leftmost position where the pattern matches. *)
Fixpoint search (p : regex) (s : string) : option matched :=
  match match_at p s with
  | Some m => Some m
  | None =>
      match s with
      | String _ r => search p r
      | "" => None
      end
  end.

(** The text one atom consumed; a capturing group around a single atom is
    that atom's piece. *)
Definition group (i : nat) (m : matched) : string := default "" (m.1 !! i).

Definition match_length (m : matched) : nat :=
  foldr (λ p n, String.length p + n) 0 m.1.

(** [re.sub]: scan from the left, replace each match and go on after it;
    [skip] counts the characters of the current match still to be
    passed.  An empty match inserts the replacement and copies the next
    character. *)
Fixpoint sub_from (p : regex) (repl : string) (skip : nat) (s : string)
    : string :=
  match skip with
  | S k =>
      match s with
      | String _ r => sub_from p repl k r
      | "" => ""
      end
  | 0 =>
      match s with
      | String c r =>
          match match_at p s with
          | Some m =>
              match match_length m with
              | S k => repl +:+ sub_from p repl k r
              | 0 => repl +:+ String c (sub_from p repl 0 r)
              end
          | None => String c (sub_from p repl 0 r)
          end
      | "" =>
          match match_at p "" with
          | Some _ => repl
          | None => ""
          end
      end
  end.

Definition sub (p : regex) (repl s : string) : string := sub_from p repl 0 s.

Definition lit (c : ascii) : atom := Atom (Char.eqb c) Once.
Definition lit_ci (c : ascii) : atom := Atom (Char.eqb_ci c) Once.

End Re.

(** ** Exceptions *)

Inductive exn := BackendError (msg : string).

Inductive result (A : Type) : Type :=
  | Ok (a : A)
  | Raise (e : exn).
Arguments Ok {A} a.
Arguments Raise {A} e.

Global Instance result_ret : MRet result := λ A a, Ok a.
Global Instance result_bind : MBind result := λ A B f m,
  match m with
  | Ok a => f a
  | Raise e => Raise e
  end.

(** ** Loading the dictionary files *)

(** The lines a text file yields when it is iterated over in text mode
    with universal newlines: a line ends at a line feed, at a carriage
    return or at the two in a row, and its ending is handed over as a line
    feed; [cur] is the line read so far. *)
Fixpoint readlines_from (cur text : string) : list string :=
  match text with
  | "" => if Str.truthy cur then [cur] else []
  | String c rest =>
      if Ascii.eqb c "010"%char then
        (cur +:+ String "010" "") :: readlines_from "" rest
      else if Ascii.eqb c "013"%char then
        (cur +:+ String "010" "") ::
          match rest with
          | String d rest' =>
              if Ascii.eqb d "010"%char then readlines_from "" rest'
              else readlines_from "" rest
          | "" => readlines_from "" rest
          end
      else readlines_from (cur +:+ String c "") rest
  end.

(** [load_lines]: [file] is the text of the file, [None] when the path
    does not exist. *)
Definition load_lines (file : option string) : list string :=
  match file with
  | Some text => Str.strip <$> readlines_from "" text
  | None => []
  end.

(** ** Index construction *)

(** [r"^(.*?)\s*\{"]; under [re.match] the anchor [^] adds nothing, and
    [re.IGNORECASE] does not change a pattern without letters. *)
Definition headword_pattern : Re.regex :=
  [Re.Atom Char.dot Re.LazyStar; Re.Atom Char.isspace Re.Star; Re.lit "{"%char].

(** The key [m.group(1).strip().lower()] of a line, when the pattern
    matches. *)
Definition headword_key (line : string) : option string :=
  match Re.rmatch headword_pattern line with
  | Some m => Some (Str.lower (Str.strip (Re.group 0 m)))
  | None => None
  end.

(** [index.setdefault(key, []).append(line)] *)
Definition setdefault_append (key line : string)
    (index : gmap string (list string)) : gmap string (list string) :=
  <[key := default [] (index !! key) ++ [line]]> index.

Definition build_index (lines : list string) : gmap string (list string) :=
  foldl (λ index line,
           match headword_key line with
           | Some key => setdefault_append key line index
           | None => index
           end) ∅ lines.

(** ** Utility functions *)

Definition FRENCH_ARTICLES : list string := ["le "; "la "; "les "; "l'"].

Definition clean_input (word : string) : string :=
  let word := Str.lower (Str.strip word) in
  let word := if Str.startswith word "to " then Str.skip 3 word else word in
  foldl (λ word article,
           if Str.startswith word article
           then Str.skip (String.length article) word
           else word) word FRENCH_ARTICLES.

(** [r"SEE:\s*(.*?)\s*::"] with [re.IGNORECASE]; group 1 is the sixth
    atom. *)
Definition see_pattern : Re.regex :=
  [Re.lit_ci "S"%char; Re.lit_ci "E"%char; Re.lit_ci "E"%char;
   Re.lit_ci ":"%char; Re.Atom Char.isspace Re.Star;
   Re.Atom Char.dot Re.LazyStar; Re.Atom Char.isspace Re.Star;
   Re.lit_ci ":"%char; Re.lit_ci ":"%char].

Definition extract_see_reference (line : string) : option string :=
  match Re.search see_pattern line with
  | Some m => Some (Str.strip (Re.group 5 m))
  | None => None
  end.

(** [r'/[^/]+/'] *)
Definition phonetics_pattern : Re.regex :=
  [Re.lit "/"%char; Re.Atom (λ c, negb (Char.eqb "/"%char c)) Re.Plus;
   Re.lit "/"%char].

Definition remove_phonetics (text : string) : string :=
  Re.sub phonetics_pattern "" text.

(** [r'\}\s+'] *)
Definition brace_spaces_pattern : Re.regex :=
  [Re.lit "}"%char; Re.Atom Char.isspace Re.Plus].

Definition remove_extra_spaces (text : string) : string :=
  Re.sub brace_spaces_pattern "} " text.

Arguments remove_phonetics : simpl never.
Arguments remove_extra_spaces : simpl never.

(** ** Core search functions *)

(** The test [if see_ref:] of the resolver: a reference that is neither
    [None] nor the empty string. *)
Definition see_target (line : string) : option string :=
  match extract_see_reference line with
  | Some ref => if Str.truthy ref then Some ref else None
  | None => None
  end.

(** One turn of the loop over a bucket; [recurse] is the recursive call,
    [None] a call that ran out of fuel. *)
Definition expand_line
    (recurse : string → gset string → option (list string * gset string))
    (acc : option (list string * gset string)) (line : string)
    : option (list string * gset string) :=
  match acc with
  | None => None
  | Some (results, visited) =>
      match see_target line with
      | Some see_ref =>
          match recurse see_ref visited with
          | None => None
          | Some (recursed, visited) =>
              if bool_decide (recursed ≠ []) && (length recursed <=? 2)
              then Some (results ++ recursed, visited)
              else if bool_decide (recursed = [])
                   then Some (results ++ [line], visited)
                   else Some (results, visited)
          end
      | None => Some (results ++ [line], visited)
      end
  end.

(** [find_lines_in_index] with the set [visited] threaded through: the
    call returns its results and the set as it has left it.  [fuel] bounds
    the depth of the recursion. *)
Fixpoint find_lines_fuel (fuel : nat) (index : gmap string (list string))
    (search_word : string) (visited : gset string)
    : option (list string * gset string) :=
  match fuel with
  | 0 => None
  | S fuel' =>
      let key := Str.lower search_word in
      if bool_decide (key ∈ visited) then Some ([], visited)
      else
        let visited := {[key]} ∪ visited in
        match index !! key with
        | Some bucket =>
            foldl (expand_line (find_lines_fuel fuel' index))
                  (Some ([], visited)) bucket
        | None => Some ([], visited)
        end
  end.

(** The resolver with the recursion limit of the interpreter left out: a
    chain of nested calls enters a bucket once per key of the index at
    most, so one more level than the index has keys is enough for every
    call to return.  [find_lines_limited] below is the resolver under the
    limit. *)
Definition find_lines_in_index (index : gmap string (list string))
    (search_word : string) (visited : gset string)
    : option (list string * gset string) :=
  find_lines_fuel (S (size index)) index search_word visited.

(** A call from the request handler, [visited=None]: a fresh set, and only
    the results are used. *)
Definition resolve (index : gmap string (list string)) (search_word : string)
    : list string :=
  match find_lines_in_index index search_word ∅ with
  | Some (results, _) => results
  | None => []
  end.




(** The resolver under the recursion limit of the interpreter.  CPython
    gives up with [RecursionError] when the calls nested on its stack
    outnumber its recursion limit, 1000 unless it has been changed;
    nothing in the program catches the exception.  [depth] is the number
    of nested calls of [find_lines_in_index] that the limit leaves room
    for at the point where the resolver is called. *)
Inductive outcome (A : Type) : Type :=
  | Returned (a : A)
  | RecursionError.
Arguments Returned {A} a.
Arguments RecursionError {A}.

Definition expand_line_limited
    (recurse : string → gset string → outcome (list string * gset string))
    (acc : outcome (list string * gset string)) (line : string)
    : outcome (list string * gset string) :=
  match acc with
  | RecursionError => RecursionError
  | Returned (results, visited) =>
      match see_target line with
      | Some see_ref =>
          match recurse see_ref visited with
          | RecursionError => RecursionError
          | Returned (recursed, visited) =>
              if bool_decide (recursed ≠ []) && (length recursed <=? 2)
              then Returned (results ++ recursed, visited)
              else if bool_decide (recursed = [])
                   then Returned (results ++ [line], visited)
                   else Returned (results, visited)
          end
      | None => Returned (results ++ [line], visited)
      end
  end.

Fixpoint find_lines_limited (depth : nat) (index : gmap string (list string))
    (search_word : string) (visited : gset string)
    : outcome (list string * gset string) :=
  match depth with
  | 0 => RecursionError
  | S depth' =>
      let key := Str.lower search_word in
      if bool_decide (key ∈ visited) then Returned ([], visited)
      else
        let visited := {[key]} ∪ visited in
        match index !! key with
        | Some bucket =>
            foldl (expand_line_limited (find_lines_limited depth' index))
                  (Returned ([], visited)) bucket
        | None => Returned ([], visited)
        end
  end.

Definition find_lines_after_colon_from_lines (lines : list string)
    (search_phrase : string) : list string :=
  foldl (λ matching_lines line,
           match Str.split_once "::" line with
           | Some (_, after_text) =>
               if Str.contains (Str.lower search_phrase) (Str.lower after_text)
               then matching_lines ++ [line]
               else matching_lines
           | None => matching_lines
           end) [] lines.

(** [r"[a-zA-Z]"] *)
Definition letter_pattern : Re.regex := [Re.Atom Char.is_ascii_letter Re.Once].

Definition translation_has_letters (line : string) : bool :=
  match Str.split_once "::" line with
  | Some (_, after_text) =>
      bool_decide (is_Some (Re.search letter_pattern (Str.strip after_text)))
  | None => true
  end.

(** ** Result normalisation

    The loop that ends the request handler (deduplicate and clean). *)

Definition clean_result (res : string) : string :=
  Str.strip (remove_phonetics (remove_extra_spaces res)).

Definition normalize_step (st : gset string * list string) (res : string)
    : gset string * list string :=
  let '(seen, deduped_results) := st in
  let res_clean := clean_result res in
  if bool_decide (res_clean ∈ seen) then (seen, deduped_results)
  else ({[res_clean]} ∪ seen, deduped_results ++ [res_clean]).

Definition normalize (results : list string) : list string :=
  (foldl normalize_step (∅, []) results).2.

(** ** The translation endpoint *)

(** [wordnet.NOUN] and [wordnet.VERB] *)
Inductive pos := NOUN | VERB.

(** The order in which a [for] loop goes through a set: some enumeration
    of its elements, each once. *)
Record set_order := SetOrder {
  iterate : gset string → list string;
  iterate_perm : ∀ X, iterate X ≡ₚ elements X
}.

Record response := Response {
  input_word : string;
  cleaned_word : string;
  translations : list string
}.

Section Service.

(** The two dictionary files as [load_lines] has read them. *)
Variables EN_FR_LINES FR_EN_LINES : list string.

(** [lemmatizer.lemmatize(word, pos)] of NLTK's WordNet lemmatizer. *)
Variable lemmatize : string → pos → result string.

(** [nlp(word)] of the spaCy model: the [lemma_] of each token of the
    document. *)
Variable nlp : string → result (list string).

Variable order : set_order.

Definition en_fr_index : gmap string (list string) := build_index EN_FR_LINES.
Definition fr_en_index : gmap string (list string) := build_index FR_EN_LINES.

Definition lemmatize_word_english (word : string) : result (gset string) :=
  noun_lemma ← lemmatize word NOUN;
  verb_lemma ← lemmatize word VERB;
  Ok ({[word; noun_lemma; verb_lemma]} : gset string).

Definition lemmatize_word_french (word : string) : result (gset string) :=
  doc ← nlp word;
  Ok ({[word; match doc with lemma_ :: _ => lemma_ | [] => word end]}
      : gset string).

(** Direct matches: every line that has letters, labelled. *)
Definition direct_matches (label : string) (results matches : list string)
    : list string :=
  foldl (λ results line,
           if translation_has_letters line
           then results ++ [label +:+ line]
           else results) results matches.

(** Lemmatized matches: as above, unless the labelled line is already
    among the results. *)
Definition lemma_matches (label : string) (results matches : list string)
    : list string :=
  foldl (λ results line,
           if translation_has_letters line then
             let res_line := label +:+ line in
             if bool_decide (res_line ∈ results) then results
             else results ++ [res_line]
           else results) results matches.

Definition lemmatized_pass (label : string)
    (index : gmap string (list string)) (lemmas : gset string)
    (results : list string) : list string :=
  foldl (λ results lemma, lemma_matches label results (resolve index lemma))
        results (iterate order lemmas).

(** The handler up to the reverse search: the direct matches in both
    directions, then the English and the French lemmas. *)
Definition direct_results (cleaned_word : string) : list string :=
  let results := [] in
  let results :=
    direct_matches "EN -> FR: " results (resolve en_fr_index cleaned_word) in
  let results :=
    direct_matches "FR -> EN: " results (resolve fr_en_index cleaned_word) in
  results.

Definition lemma_results (cleaned_word : string) (results : list string)
    : result (list string) :=
  lemmas ← lemmatize_word_english cleaned_word;
  let results := lemmatized_pass "EN -> FR: " en_fr_index lemmas results in
  lemmas ← lemmatize_word_french cleaned_word;
  let results := lemmatized_pass "FR -> EN: " fr_en_index lemmas results in
  Ok results.

Definition forward_results (cleaned_word : string) : result (list string) :=
  lemma_results cleaned_word (direct_results cleaned_word).

Definition input_lang (cleaned_word : string) : string :=
  if bool_decide (cleaned_word ∈ dom en_fr_index) then "EN"
  else if bool_decide (cleaned_word ∈ dom fr_en_index) then "FR"
  else "EN".

(** [parts[1].strip() + " :: " + parts[0].strip()], or the [line] itself
    when the split has one part. *)
Definition swapped (line : string) : string :=
  match Str.split_once "::" line with
  | Some (before, after) => Str.strip after +:+ " :: " +:+ Str.strip before
  | None => line
  end.

Definition reverse_matches (rev_label : string)
    (reverse_results matches : list string) : list string :=
  foldl (λ reverse_results line,
           if translation_has_letters line
           then reverse_results ++ [rev_label +:+ " " +:+ swapped line]
           else reverse_results) reverse_results matches.

(** The block under [if not results:]. *)
Definition reverse_search (cleaned_word : string) : list string :=
  let reverse_results := [] in
  let rev_label :=
    if String.eqb (input_lang cleaned_word) "EN"
    then "EN -> FR:" else "FR -> EN:" in
  let reverse_results :=
    reverse_matches rev_label reverse_results
      (find_lines_after_colon_from_lines EN_FR_LINES cleaned_word) in
  let reverse_results :=
    reverse_matches rev_label reverse_results
      (find_lines_after_colon_from_lines FR_EN_LINES cleaned_word) in
  reverse_results.

(** The results before normalisation. *)
Definition search_results (cleaned_word : string) : result (list string) :=
  results ← forward_results cleaned_word;
  Ok (if bool_decide (results = [])
      then results ++ reverse_search cleaned_word
      else results).

Definition translate_word_api (word : string) : result response :=
  let cleaned_word := clean_input word in
  results ← search_results cleaned_word;
  let deduped_results := normalize results in
  Ok {| input_word := word;
        cleaned_word := cleaned_word;
        translations :=
          if bool_decide (deduped_results = [])
          then ["Translation not found."]
          else deduped_results |}.

End Service.

(** * The statements of the specification

    Definitions that follow the words of the specification, to be compared
    with the code above. *)

Module Spec.

(** [str.removeprefix]: drop [p] from the front of [s] if it is there. *)
Definition removeprefix (p s : string) : string :=
  if Str.startswith s p then Str.skip (String.length p) s else s.

(** Article stripping as the specification words it: the articles are
    tried in order, the first that matches is stripped, and no other. *)
Fixpoint strip_first_article (articles : list string) (word : string)
    : string :=
  match articles with
  | [] => word
  | article :: articles' =>
      if Str.startswith word article
      then Str.skip (String.length article) word
      else strip_first_article articles' word
  end.

Definition clean_first_article (word : string) : string :=
  strip_first_article FRENCH_ARTICLES
    (removeprefix "to " (Str.lower (Str.strip word))).

(** The headword of a line: the text before the first opening brace,
    trimmed and lowercased. *)
Definition headword (line : string) : option string :=
  match Str.split_once "{" line with
  | Some (before, _) => Some (Str.lower (Str.strip before))
  | None => None
  end.

(** A line, as a line-oriented file yields it, holds no line feed. *)
Definition is_line (line : string) : Prop :=
  Str.existsb (Ascii.eqb "010"%char) line = false.

(** The text that follows the first "see:" of a line, in whatever letter
    case. *)
Fixpoint after_marker (line : string) : option string :=
  if Str.startswith (Str.lower line) "see:" then Some (Str.skip 4 line)
  else match line with
       | "" => None
       | String _ rest => after_marker rest
       end.

(** The phrase of a redirect marker [SEE: <phrase> ::]: the text between
    the first "see:" of the line and the first [::] after it, trimmed.  A
    marker that holds no phrase names no headword and is no redirect. *)
Definition redirect (line : string) : option string :=
  match after_marker line with
  | Some after =>
      match Str.split_once "::" after with
      | Some (phrase, _) =>
          if Str.truthy (Str.strip phrase) then Some (Str.strip phrase)
          else None
      | None => None
      end
  | None => None
  end.

(** The redirect policy, line by line over a bucket: [recurse] is the
    resolver as it is called on a phrase, [visited] the set before the
    bucket's first line and after its last. *)
Inductive splice_rule
    (recurse : string → gset string → outcome (list string * gset string))
    : list string → gset string → list string → gset string → Prop :=
  | splice_end visited :
      splice_rule recurse [] visited [] visited
  | splice_plain line bucket visited results visited' :
      redirect line = None →
      splice_rule recurse bucket visited results visited' →
      splice_rule recurse (line :: bucket) visited (line :: results) visited'
  | splice_resolved line phrase recursed bucket visited visited1
      results visited' :
      redirect line = Some phrase →
      recurse phrase visited = Returned (recursed, visited1) →
      1 ≤ length recursed ≤ 2 →
      splice_rule recurse bucket visited1 results visited' →
      splice_rule recurse (line :: bucket) visited (recursed ++ results)
        visited'
  | splice_fallback line phrase bucket visited visited1 results visited' :
      redirect line = Some phrase →
      recurse phrase visited = Returned ([], visited1) →
      splice_rule recurse bucket visited1 results visited' →
      splice_rule recurse (line :: bucket) visited (line :: results) visited'
  | splice_dropped line phrase recursed bucket visited visited1
      results visited' :
      redirect line = Some phrase →
      recurse phrase visited = Returned (recursed, visited1) →
      2 < length recursed →
      splice_rule recurse bucket visited1 results visited' →
      splice_rule recurse (line :: bucket) visited results visited'.

(** The text after the first [::] of a line holds an ASCII letter. *)
Definition letters_after_colon (line : string) : bool :=
  match Str.split_once "::" line with
  | Some (_, after) => Str.existsb Char.is_ascii_letter after
  | None => false
  end.

(** The cleaned word occurs, whatever the case, after the first [::]. *)
Definition reverse_match (cleaned_word line : string) : bool :=
  match Str.split_once "::" line with
  | Some (_, after) =>
      Str.contains (Str.lower cleaned_word) (Str.lower after)
  | None => false
  end.

(** The two sides of a line around its first [::], exchanged. *)
Definition swap_sides (line : string) : string :=
  match Str.split_once "::" line with
  | Some (before, after) => Str.strip after +:+ " :: " +:+ Str.strip before
  | None => line
  end.

Definition guessed_direction
    (en_fr_index fr_en_index : gmap string (list string))
    (cleaned_word : string) : string :=
  if bool_decide (cleaned_word ∈ dom en_fr_index) then "EN -> FR"
  else if bool_decide (cleaned_word ∈ dom fr_en_index) then "FR -> EN"
  else "EN -> FR".

(** The reverse fallback: the matching lines of both files, those with
    letters on the translation side, swapped and labelled alike. *)
Definition reverse_fallback (EN_FR_LINES FR_EN_LINES : list string)
    (cleaned_word : string) : list string :=
  let direction :=
    guessed_direction (build_index EN_FR_LINES) (build_index FR_EN_LINES)
      cleaned_word in
  (λ line, direction +:+ ": " +:+ swap_sides line) <$>
    filter (λ line, letters_after_colon line)
      (filter (λ line, reverse_match cleaned_word line)
         (EN_FR_LINES ++ FR_EN_LINES)).

(** A backend that falls back to the word itself when it fails. *)
Definition lemmatize_or_word (lemmatize : string → pos → result string)
    (word : string) (p : pos) : result string :=
  match lemmatize word p with
  | Ok lemma => Ok lemma
  | Raise _ => Ok word
  end.

Definition nlp_or_word (nlp : string → result (list string))
    (word : string) : result (list string) :=
  match nlp word with
  | Ok doc => Ok doc
  | Raise _ => Ok [word]
  end.

(** No slash in the text, so no phonetic annotation. *)
Definition no_slash (text : string) : Prop :=
  Str.existsb (Char.eqb "/"%char) text = false.

End Spec.

(** Set iteration in the order of [elements]. *)
Definition elements_order : set_order :=
  SetOrder elements (λ X, reflexivity (elements X)).

(** ** Example dictionaries *)

(** Scenario 3 of the specification. *)
Definition scenario_3 : list string :=
  ["apple {} :: SEE: fruit ::"; "fruit {} :: fruit-fr"].

(** Two redirects that point at each other. *)
Definition cycle_lines : list string :=
  ["a {} :: SEE: b ::"; "b {} :: SEE: a ::"].

(** A chain of [n] redirects, each headword pointing at the next; the
    last points at a headword that has no line.  The headwords are "w",
    "wx", "wxx" and so on. *)
Fixpoint marks (i : nat) : string :=
  match i with
  | 0 => ""
  | S i' => String "x" (marks i')
  end.

Definition chain_word (i : nat) : string := String "w" (marks i).

Definition chain_line (i : nat) : string :=
  chain_word i +:+ " {n} :: SEE: " +:+ chain_word (S i) +:+ " ::".

Definition see_chain (n : nat) : list string := chain_line <$> seq 0 n.

(** A small dictionary pair. *)
Definition en_fr_sample : list string :=
  ["eat {v} /it/ :: manger"; "bare {n}"; "number {} :: 123"].

Definition fr_en_sample : list string :=
  ["manger {v} :: to eat"; "pomme {f} :: apple"].

(** Backends that answer with the word itself, and backends that are
    down. *)
Definition lemmatize_same (word : string) (p : pos) : result string := Ok word.

Definition nlp_same (word : string) : result (list string) :=
  Ok (if Str.truthy word then [word] else []).

Definition lemmatize_down (word : string) (p : pos) : result string :=
  Raise (BackendError "wordnet is not available").

(** A file with the three line endings. *)
Definition mixed_file : string :=
  "Apple {n} :: pomme" +:+ String "010" ""
  +:+ "no brace here :: rien" +:+ String "013" (String "010" "")
  +:+ "apple   {v} :: pommer  " +:+ String "013" ""
  +:+ "pear {n} :: poire".

(** Lines in mixed case, with and without a brace. *)
Definition mixed_lines : list string :=
  ["Apple {n} :: pomme"; "no brace here :: rien"; "apple   {v} :: pommer";
   "pear {n} :: poire"].

(** Results without a slash, and one with a phonetic annotation after the
    brace. *)
Definition plain_results : list string :=
  ["EN -> FR: word {n}   :: translation "; "EN -> FR: word {n} :: translation";
   "FR -> EN: mot {m} :: word"].

(** A result whose translation side is a web address: three slashes. *)
Definition link_results : list string :=
  ["EN -> FR: site {n} :: http://a.com/b/c"].

(** The lines of an outcome, when the call has returned. *)
Definition returned_lines (o : outcome (list string * gset string))
    : option (list string) :=
  match o with
  | Returned (results, _) => Some results
  | RecursionError => None
  end.

(** ** Measures and invariants of the proofs *)

(** The keys of the index whose bucket can still be entered. *)
Definition budget (index : gmap string (list string)) (visited : gset string)
    : nat :=
  size (dom index ∖ visited).

(** The loop of the resolver over a bucket, as a relation: what each line
    adds to the results, with the test and the recursive call of the code;
    [visited] is the set before the bucket's first line and after its
    last. *)
Inductive loop_rule (index : gmap string (list string))
    : list string → gset string → list string → gset string → Prop :=
  | loop_end visited :
      loop_rule index [] visited [] visited
  | loop_plain line bucket visited results visited' :
      see_target line = None →
      loop_rule index bucket visited results visited' →
      loop_rule index (line :: bucket) visited (line :: results) visited'
  | loop_resolved line see_ref recursed bucket visited visited1
      results visited' :
      see_target line = Some see_ref →
      find_lines_in_index index see_ref visited = Some (recursed, visited1) →
      1 ≤ length recursed ≤ 2 →
      loop_rule index bucket visited1 results visited' →
      loop_rule index (line :: bucket) visited (recursed ++ results) visited'
  | loop_fallback line see_ref bucket visited visited1 results visited' :
      see_target line = Some see_ref →
      find_lines_in_index index see_ref visited = Some ([], visited1) →
      loop_rule index bucket visited1 results visited' →
      loop_rule index (line :: bucket) visited (line :: results) visited'
  | loop_dropped line see_ref recursed bucket visited visited1
      results visited' :
      see_target line = Some see_ref →
      find_lines_in_index index see_ref visited = Some (recursed, visited1) →
      2 < length recursed →
      loop_rule index bucket visited1 results visited' →
      loop_rule index (line :: bucket) visited results visited'.


(** Where a result of the search comes from: a line the resolver has
    returned for some word, under the label of its index, or a line of
    either file that holds the cleaned word after its first [::], with its
    sides exchanged, under one of the two labels. *)
Inductive comes_from (EN_FR_LINES FR_EN_LINES : list string)
    (cleaned_word : string) : string → string → Prop :=
  | from_en_fr word line :
      line ∈ resolve (build_index EN_FR_LINES) word →
      comes_from EN_FR_LINES FR_EN_LINES cleaned_word
        line ("EN -> FR: " +:+ line)
  | from_fr_en word line :
      line ∈ resolve (build_index FR_EN_LINES) word →
      comes_from EN_FR_LINES FR_EN_LINES cleaned_word
        line ("FR -> EN: " +:+ line)
  | from_reverse direction line :
      direction = "EN -> FR" ∨ direction = "FR -> EN" →
      line ∈ EN_FR_LINES ++ FR_EN_LINES →
      Spec.reverse_match cleaned_word line →
      comes_from EN_FR_LINES FR_EN_LINES cleaned_word
        line (direction +:+ ": " +:+ Spec.swap_sides line).

(** The text begins with whitespace. *)
Definition space_first (s : string) : bool :=
  match s with
  | String c _ => Char.isspace c
  | "" => false
  end.

(** After a closing brace [c] comes no whitespace, or one space and no
    more. *)
Definition brace_ok (c : ascii) (r : string) : bool :=
  if Char.eqb "}"%char c then
    match r with
    | String d r' =>
        negb (Char.isspace d) || Char.eqb " "%char d && negb (space_first r')
    | "" => true
    end
  else true.

(** A text that [remove_extra_spaces] leaves as it is. *)
Fixpoint tidy (s : string) : bool :=
  match s with
  | "" => true
  | String c r => brace_ok c r && tidy r
  end.

(** ** Further statements about the code *)

(** The text a match has consumed: its pieces, joined. *)
Definition joined (pieces : list string) : string :=
  foldr String.append "" pieces.

(** Every character of the text is in the class. *)
Fixpoint all_in (f : ascii → bool) (s : string) : bool :=
  match s with
  | "" => true
  | String c r => f c && all_in f r
  end.

(** What the piece of an atom may be: characters of the class, one of
    them under [Once], one at least under [Plus]. *)
Definition conforms (a : Re.atom) (piece : string) : Prop :=
  all_in (Re.cls a) piece = true
  ∧ match Re.rep a with
    | Re.Once => String.length piece = 1
    | Re.Plus => 1 ≤ String.length piece
    | Re.Star | Re.LazyStar => True
    end.

(** The text without its whitespace. *)
Fixpoint remove_spaces (s : string) : string :=
  match s with
  | "" => ""
  | String c r =>
      if Char.isspace c then remove_spaces r else String c (remove_spaces r)
  end.

(** A line written to a file: the line and a line feed. *)
Definition write_lines (lines : list string) : string :=
  joined ((λ line, line +:+ String "010" "") <$> lines).

(** The text holds neither a line feed nor a carriage return. *)
Definition no_line_break (s : string) : Prop :=
  Str.existsb (λ c, Ascii.eqb c "010"%char || Ascii.eqb c "013"%char) s = false.

(** The first occurrences of the elements of a list that are not in
    [seen], in the order of the list. *)
Fixpoint first_occurrences (seen : gset string) (l : list string)
    : list string :=
  match l with
  | [] => []
  | x :: l' =>
      if bool_decide (x ∈ seen) then first_occurrences seen l'
      else x :: first_occurrences ({[x]} ∪ seen) l'
  end.

(** The text holds a phonetic annotation: two slashes with something but
    no slash between them. *)
Definition has_annotation (s : string) : Prop :=
  ∃ a b c, s = a +:+ String "/" (b +:+ String "/" c)
           ∧ b ≠ "" ∧ Spec.no_slash b.

(** A scan for an annotation, from the left: [opened] says that a slash
    has been passed, [filled] that a character other than a slash has come
    since the last one. *)
Fixpoint annotated (opened filled : bool) (s : string) : bool :=
  match s with
  | "" => false
  | String c r =>
      if Char.eqb "/" c then opened && filled || annotated true false r
      else annotated opened opened r
  end.

(** * Input cleaning *)

Lemma foldl_articles (word : string) :
  foldl (λ word article,
           if Str.startswith word article
           then Str.skip (String.length article) word
           else word) word FRENCH_ARTICLES
  = Spec.removeprefix "l'" (Spec.removeprefix "les "
      (Spec.removeprefix "la " (Spec.removeprefix "le " word))).
Proof. reflexivity. Qed.

(** C3, as the code has it: after lowercasing, trimming and the removal of
    one leading "to ", the four articles are tried once each, in the order
    "le ", "la ", "les ", "l'", and each one that is a prefix of the word
    as it then stands is removed; a removal does not end the loop. *)
Theorem clean_input_strips_each_article_in_turn (word : string) :
  clean_input word
  = Spec.removeprefix "l'" (Spec.removeprefix "les "
      (Spec.removeprefix "la " (Spec.removeprefix "le "
         (Spec.removeprefix "to " (Str.lower (Str.strip word)))))).
Proof. unfold clean_input. by rewrite foldl_articles. Qed.

(** C3 as stated fails: "le la pomme" loses both "le " and "la ", where
    the first-match-only rule would leave "la pomme". *)
Lemma clean_input_strips_two_articles :
  clean_input "le la pomme" = "pomme"
  ∧ Spec.clean_first_article "le la pomme" = "la pomme"
  ∧ clean_input "le la pomme" ≠ Spec.clean_first_article "le la pomme".
Proof. by vm_compute. Qed.

(** * Normalisation of one line *)

(** C4, as the code has it: the phonetic annotation is removed, and the
    two spaces that surrounded it both stay. *)
Theorem normalize_scenario_keeps_two_spaces :
  normalize ["word {} :: /fo.net.iks/ translation"]
  = ["word {} ::  translation"].
Proof. by vm_compute. Qed.

(** C4 as stated fails: the result is not the line with a single space
    before "translation". *)
Lemma normalize_scenario_not_single_space :
  normalize ["word {} :: /fo.net.iks/ translation"]
  ≠ ["word {} :: translation"].
Proof. by vm_compute. Qed.

(** * Strings and patterns *)

Lemma letter_not_space (c : ascii) :
  Char.is_ascii_letter c = true → Char.isspace c = false.
Proof. destruct c as [[] [] [] [] [] [] [] []]; by vm_compute. Qed.

Lemma existsb_lstrip (f : ascii → bool) (s : string) :
  (∀ c, f c = true → Char.isspace c = false) →
  Str.existsb f (Str.lstrip s) = Str.existsb f s.
Proof.
  intros Hf. induction s as [|c r IH]; [done|]. cbn.
  destruct (Char.isspace c) eqn:Ec; [|done].
  rewrite IH. destruct (f c) eqn:Efc; [|done]. apply Hf in Efc. congruence.
Qed.

Lemma existsb_rstrip (f : ascii → bool) (s : string) :
  (∀ c, f c = true → Char.isspace c = false) →
  Str.existsb f (Str.rstrip s) = Str.existsb f s.
Proof.
  intros Hf. induction s as [|c r IH]; [done|]. cbn.
  destruct (Str.rstrip r) as [|d r'] eqn:Er.
  - rewrite <-IH. cbn. destruct (Char.isspace c) eqn:Ec; cbn.
    + destruct (f c) eqn:Efc; [|done]. apply Hf in Efc. congruence.
    + by rewrite orb_false_r.
  - by rewrite <-IH.
Qed.

Lemma existsb_strip (f : ascii → bool) (s : string) :
  (∀ c, f c = true → Char.isspace c = false) →
  Str.existsb f (Str.strip s) = Str.existsb f s.
Proof.
  intros Hf. unfold Str.strip. by rewrite existsb_rstrip, existsb_lstrip.
Qed.

(** A search for one character of a class succeeds when the subject has
    such a character. *)
Lemma search_class (f : ascii → bool) (s : string) :
  is_Some (Re.search [Re.Atom f Re.Once] s) ↔ Str.existsb f s = true.
Proof.
  induction s as [|c r IH]; cbn.
  { split; [by intros [? [=]]|done]. }
  destruct (f c); cbn; [|done]. split; [done|eauto].
Qed.

Lemma translation_has_letters_split (line before after : string) :
  Str.split_once "::" line = Some (before, after) →
  translation_has_letters line = Str.existsb Char.is_ascii_letter after.
Proof.
  intros Hs. unfold translation_has_letters. rewrite Hs.
  rewrite <-(existsb_strip _ after) by apply letter_not_space.
  destruct (Str.existsb _ (Str.strip after)) eqn:E.
  - by apply bool_decide_eq_true, search_class.
  - apply bool_decide_eq_false. unfold letter_pattern.
    rewrite search_class. congruence.
Qed.

Lemma translation_has_letters_no_colon (line : string) :
  Str.split_once "::" line = None → translation_has_letters line = true.
Proof. intros Hs. unfold translation_has_letters. by rewrite Hs. Qed.

Lemma startswith_empty (s : string) : Str.startswith s "" = true.
Proof. by destruct s. Qed.

Lemma contains_empty (s : string) : Str.contains "" s = true.
Proof.
  unfold Str.contains. apply bool_decide_eq_true.
  destruct s; cbn; eauto.
Qed.

Lemma char_eqb_eq (a b : ascii) : Char.eqb a b = true ↔ a = b.
Proof. apply Ascii.eqb_eq. Qed.

Lemma char_eqb_neq (a b : ascii) : Char.eqb a b = false ↔ a ≠ b.
Proof. apply Ascii.eqb_neq. Qed.

(** Splitting at a separator of one character. *)
Lemma split_once_char (sep c : ascii) (r : string) :
  Str.split_once (String sep "") (String c r)
  = if Char.eqb sep c then Some ("", r)
    else match Str.split_once (String sep "") r with
         | Some (a, b) => Some (String c a, b)
         | None => None
         end.
Proof.
  cbn [Str.split_once Str.startswith Str.skip String.length].
  by rewrite startswith_empty, andb_true_r.
Qed.

(** ** The matcher *)

Lemma piece_some (p : string) (m : option Re.matched) (ps : list string)
    (rest : string) :
  Re.piece p m = Some (ps, rest) → ∃ ps', ps = p :: ps' ∧ m = Some (ps', rest).
Proof. destruct m as [[ps' rest']|]; [|done]. intros [= <- <-]. eauto. Qed.

(** A repetition always has its own piece, be it empty. *)
Lemma greedy_pieces (f : ascii → bool) (k : string → option Re.matched)
    (s rest : string) (ps : list string) :
  Re.greedy f k s = Some (ps, rest) → ps ≠ [].
Proof.
  revert ps rest. induction s as [|c r IH]; intros ps rest; cbn [Re.greedy].
  { by intros (? & -> & _)%piece_some. }
  destruct (f c); [|by intros (? & -> & _)%piece_some].
  destruct (Re.greedy f k r) as [[ps' rest']|];
    [|by intros (? & -> & _)%piece_some].
  specialize (IH ps' rest' eq_refl).
  destruct ps' as [|p ps']; [done|]. by intros [= <- <-].
Qed.

Lemma lazy_pieces (f : ascii → bool) (k : string → option Re.matched)
    (s rest : string) (ps : list string) :
  Re.lazy f k s = Some (ps, rest) → ps ≠ [].
Proof.
  revert ps rest. induction s as [|c r IH]; intros ps rest; cbn [Re.lazy].
  { destruct (k ""); [by intros (? & -> & _)%piece_some|done]. }
  destruct (k (String c r)); [by intros (? & -> & _)%piece_some|].
  destruct (f c); [|done].
  destruct (Re.lazy f k r) as [[ps' rest']|]; [|done].
  specialize (IH ps' rest' eq_refl).
  destruct ps' as [|p ps']; [done|]. by intros [= <- <-].
Qed.

(** * The cross-reference resolver *)

Section Resolver.

Context (index : gmap string (list string)).

Implicit Types (visited : gset string) (bucket results : list string).

Local Abbreviation call :=
  (string → gset string → option (list string * gset string)).

Lemma budget_mono visited visited' :
  visited ⊆ visited' → budget index visited' ≤ budget index visited.
Proof. intros ?. unfold budget. apply subseteq_size. set_solver. Qed.

Lemma budget_enter key visited :
  key ∉ visited → key ∈ dom index →
  budget index ({[key]} ∪ visited) < budget index visited.
Proof.
  intros ??. unfold budget. apply subset_size.
  split; [set_solver|]. intros Hsub. specialize (Hsub key). set_solver.
Qed.

Lemma budget_le_size visited : budget index visited ≤ size index.
Proof. unfold budget. rewrite <-size_dom. apply subseteq_size. set_solver. Qed.

Lemma expand_line_none (f : call) bucket :
  foldl (expand_line f) None bucket = None.
Proof. by induction bucket. Qed.

(** The loop over a bucket returns when every recursive call it makes
    does, and never shrinks the set. *)
Lemma bucket_loop_returns (f : call) (bound : gset string) bucket :
  (∀ word visited, bound ⊆ visited →
     ∃ recursed visited', f word visited = Some (recursed, visited')
                          ∧ visited ⊆ visited') →
  ∀ results visited, bound ⊆ visited →
    ∃ results' visited',
      foldl (expand_line f) (Some (results, visited)) bucket
      = Some (results', visited') ∧ visited ⊆ visited'.
Proof.
  intros Hf. induction bucket as [|line bucket IH]; intros results visited Hb.
  { by exists results, visited. }
  cbn [foldl]. unfold expand_line at 2.
  destruct (see_target line) as [see_ref|]; [|by apply IH].
  destruct (Hf see_ref visited Hb) as (recursed & v1 & -> & Hv1).
  assert (bound ⊆ v1) by set_solver.
  repeat case_match;
    (edestruct IH as (r' & v' & -> & ?); [eassumption|];
     eexists _, _; split; [done|set_solver]).
Qed.

Lemma find_lines_fuel_returns fuel word visited :
  budget index visited < fuel →
  ∃ results visited',
    find_lines_fuel fuel index word visited = Some (results, visited')
    ∧ visited ⊆ visited' ∧ Str.lower word ∈ visited'.
Proof.
  revert word visited.
  induction fuel as [|fuel IH]; intros word visited Hlt; [lia|].
  cbn [find_lines_fuel]. case_bool_decide as Hin.
  { by exists [], visited. }
  destruct (index !! Str.lower word) as [bucket|] eqn:Hk; last first.
  { eexists _, _. split; [done|]. set_solver. }
  assert (budget index ({[Str.lower word]} ∪ visited) < budget index visited)
    as Hlt'.
  { apply budget_enter; [done|]. apply elem_of_dom; eauto. }
  edestruct (bucket_loop_returns (find_lines_fuel fuel index)
               ({[Str.lower word]} ∪ visited) bucket)
    as (results & visited' & -> & Hsub); [|reflexivity|].
  - intros w v Hv. destruct (IH w v) as (r & v' & ? & ? & ?); [|by eauto].
    pose proof (budget_mono _ _ Hv). lia.
  - eexists _, _. split; [done|]. set_solver.
Qed.

Lemma bucket_loop_mono (f g : call) bucket :
  (∀ word visited r, f word visited = Some r → g word visited = Some r) →
  ∀ acc r, foldl (expand_line f) acc bucket = Some r →
           foldl (expand_line g) acc bucket = Some r.
Proof.
  intros Hfg. induction bucket as [|line bucket IH]; intros acc r; [done|].
  cbn [foldl]. intros H. apply IH.
  destruct (expand_line f acc line) as [st|] eqn:E;
    [|by rewrite expand_line_none in H].
  enough (expand_line g acc line = Some st) as -> by done.
  unfold expand_line in *. destruct acc as [[results visited]|]; [|done].
  destruct (see_target line) as [see_ref|]; [|done].
  destruct (f see_ref visited) as [[recursed v1]|] eqn:Ef; [|done].
  by rewrite (Hfg _ _ _ Ef).
Qed.

(** More fuel changes nothing once a call has returned. *)
Lemma find_lines_fuel_mono fuel fuel' word visited r :
  find_lines_fuel fuel index word visited = Some r → fuel ≤ fuel' →
  find_lines_fuel fuel' index word visited = Some r.
Proof.
  revert fuel' word visited r.
  induction fuel as [|fuel IH]; intros fuel' word visited r; [done|].
  intros H Hle. destruct fuel' as [|fuel']; [lia|].
  cbn [find_lines_fuel] in *. case_bool_decide; [done|].
  destruct (index !! Str.lower word); [|done].
  eapply bucket_loop_mono; [|done]. intros w v r' ?. eapply IH; [done|lia].
Qed.

Local Abbreviation call_log :=
  (string → gset string → option (list string * gset string * list string)).






(** The loop over a bucket follows the redirect policy. *)
Lemma bucket_loop_splice (f : call) bucket :
  (∀ word visited r, f word visited = Some r →
                     find_lines_in_index index word visited = Some r) →
  ∀ results visited r,
    foldl (expand_line f) (Some (results, visited)) bucket = Some r →
    ∃ added, r.1 = results ++ added
             ∧ loop_rule index bucket visited added r.2.
Proof.
  intros Hf. induction bucket as [|line bucket IH]; intros results visited r.
  { intros [= <-]. exists []. split; [by rewrite app_nil_r|constructor]. }
  cbn [foldl]. unfold expand_line at 2.
  destruct (see_target line) as [see_ref|] eqn:Eline; last first.
  { intros (added & -> & ?)%IH. exists (line :: added).
    split; [by rewrite <-app_assoc|by constructor]. }
  destruct (f see_ref visited) as [[recursed v1]|] eqn:Ef;
    [|by rewrite expand_line_none].
  apply Hf in Ef. case_bool_decide as Hne; cbn [andb].
  - destruct (Nat.leb_spec (length recursed) 2).
    + intros (added & -> & ?)%IH. exists (recursed ++ added).
      split; [by rewrite <-app_assoc|].
      eapply loop_resolved; [done..| |done].
      destruct recursed; [done|]. cbn in *. lia.
    + rewrite bool_decide_false by done.
      intros (added & -> & ?)%IH. exists added. split; [done|].
      by eapply loop_dropped.
  - assert (recursed = []) as -> by (by destruct recursed).
    rewrite bool_decide_true by done.
    intros (added & -> & ?)%IH. exists (line :: added).
    split; [by rewrite <-app_assoc|]. by eapply loop_fallback.
Qed.

End Resolver.

Example resolve_scenario_3 :
  resolve (build_index scenario_3) "apple" = ["fruit {} :: fruit-fr"].
Proof. by vm_compute. Qed.

(** A cycle of two redirects: the inner call on "a" returns nothing, so
    the line of "b" is kept and replaces the line of "a". *)
Example resolve_cycle :
  resolve (build_index cycle_lines) "a" = ["b {} :: SEE: a ::"].
Proof. by vm_compute. Qed.

(** * The request handler *)

Section Handler.

Context (EN_FR_LINES FR_EN_LINES : list string).
Context (lemmatize : string → pos → result string).
Context (nlp : string → result (list string)).
Context (order : set_order).

Implicit Types (line label res cleaned_word : string).
Implicit Types (results matches lines : list string).

(** ** The loops as maps and filters *)

Lemma direct_matches_spec label results matches :
  direct_matches label results matches
  = results ++ ((λ line, label +:+ line) <$>
                  filter (λ line, translation_has_letters line) matches).
Proof.
  unfold direct_matches. revert results.
  induction matches as [|line matches IH]; intros results; cbn [foldl].
  { by rewrite app_nil_r. }
  rewrite IH. destruct (translation_has_letters line) eqn:E.
  - rewrite filter_cons_True; [|by rewrite E]. by rewrite <-app_assoc.
  - rewrite filter_cons_False; [|rewrite E; by intros []]. done.
Qed.

Lemma reverse_matches_spec label results matches :
  reverse_matches label results matches
  = results ++ ((λ line, label +:+ " " +:+ swapped line) <$>
                  filter (λ line, translation_has_letters line) matches).
Proof.
  unfold reverse_matches. revert results.
  induction matches as [|line matches IH]; intros results; cbn [foldl].
  { by rewrite app_nil_r. }
  rewrite IH. destruct (translation_has_letters line) eqn:E.
  - rewrite filter_cons_True; [|by rewrite E]. by rewrite <-app_assoc.
  - rewrite filter_cons_False; [|rewrite E; by intros []]. done.
Qed.

Lemma find_lines_after_colon_spec lines cleaned_word :
  find_lines_after_colon_from_lines lines cleaned_word
  = filter (λ line, Spec.reverse_match cleaned_word line) lines.
Proof.
  unfold find_lines_after_colon_from_lines.
  enough (∀ acc,
    foldl (λ matching_lines line,
             match Str.split_once "::" line with
             | Some (_, after_text) =>
                 if Str.contains (Str.lower cleaned_word) (Str.lower after_text)
                 then matching_lines ++ [line]
                 else matching_lines
             | None => matching_lines
             end) acc lines
    = acc ++ filter (λ line, Spec.reverse_match cleaned_word line) lines) as ->
    by done.
  induction lines as [|line lines IH]; intros acc; cbn [foldl].
  { by rewrite app_nil_r. }
  rewrite IH. unfold Spec.reverse_match at 2.
  destruct (Str.split_once "::" line) as [[before after]|] eqn:Es.
  - destruct (Str.contains _ _) eqn:Ec.
    + rewrite filter_cons_True; [|unfold Spec.reverse_match; by rewrite Es, Ec].
      by rewrite <-app_assoc.
    + rewrite filter_cons_False;
        [|unfold Spec.reverse_match; rewrite Es, Ec; by intros []].
      done.
  - rewrite filter_cons_False;
      [|unfold Spec.reverse_match; rewrite Es; by intros []].
    done.
Qed.

Lemma filter_filter_agree (P Q R : string → Prop)
    `{∀ x, Decision (P x)} `{∀ x, Decision (Q x)} `{∀ x, Decision (R x)} lines :
  (∀ line, Q line → (P line ↔ R line)) →
  filter P (filter Q lines) = filter R (filter Q lines).
Proof.
  intros HPR. induction lines as [|line lines IH]; [done|].
  destruct (decide (Q line)) as [HQ|HQ].
  - rewrite (filter_cons_True Q) by done.
    destruct (decide (P line)) as [HP|HP].
    + rewrite !filter_cons_True, IH; [done|by apply HPR|done].
    + rewrite !filter_cons_False, IH; [done|by rewrite <-HPR|done].
  - by rewrite (filter_cons_False Q).
Qed.

Lemma reverse_match_letters cleaned_word line :
  Spec.reverse_match cleaned_word line →
  (translation_has_letters line ↔ Spec.letters_after_colon line).
Proof.
  unfold Spec.reverse_match, Spec.letters_after_colon.
  destruct (Str.split_once "::" line) as [[before after]|] eqn:Es; [|done].
  intros _. by rewrite (translation_has_letters_split _ _ _ Es).
Qed.

Lemma swapped_spec line : swapped line = Spec.swap_sides line.
Proof. done. Qed.

Lemma rev_label_spec cleaned_word x :
  (if String.eqb (input_lang EN_FR_LINES FR_EN_LINES cleaned_word) "EN"
   then "EN -> FR:" else "FR -> EN:") +:+ " " +:+ x
  = Spec.guessed_direction (build_index EN_FR_LINES) (build_index FR_EN_LINES)
      cleaned_word +:+ ": " +:+ x.
Proof.
  unfold input_lang, Spec.guessed_direction, en_fr_index, fr_en_index.
  by repeat case_bool_decide.
Qed.

(** The block of the reverse search, loops and all, is the reverse
    fallback of the specification. *)
Lemma reverse_search_spec cleaned_word :
  reverse_search EN_FR_LINES FR_EN_LINES cleaned_word
  = Spec.reverse_fallback EN_FR_LINES FR_EN_LINES cleaned_word.
Proof.
  unfold reverse_search, Spec.reverse_fallback.
  rewrite !reverse_matches_spec, !find_lines_after_colon_spec. cbn [app].
  rewrite !filter_app, fmap_app.
  rewrite !(filter_filter_agree _ _ _ _ (reverse_match_letters cleaned_word)).
  f_equal; apply list_fmap_ext; intros _ line _; apply rev_label_spec.
Qed.

(** C7: the reverse search runs exactly when the direct and the lemma
    passes have left the results empty; its results are then the lines of
    both files that hold the cleaned word, whatever the case, after their
    first "::" (and letters there), each with its two sides exchanged and
    all under the one direction guessed from the indices: "EN -> FR" for a
    key of the EN index, else "FR -> EN" for a key of the FR index, else
    "EN -> FR". *)
Theorem search_results_reverse_fallback cleaned_word :
  search_results EN_FR_LINES FR_EN_LINES lemmatize nlp order cleaned_word
  = results ← forward_results EN_FR_LINES FR_EN_LINES lemmatize nlp order
                cleaned_word;
    Ok (match results with
        | [] => Spec.reverse_fallback EN_FR_LINES FR_EN_LINES cleaned_word
        | _ :: _ => results
        end).
Proof.
  unfold search_results.
  destruct (forward_results _ _ _ _ _ _) as [results|e]; [|done]. cbn.
  f_equal. rewrite reverse_search_spec. by destruct results.
Qed.

(** C9, as the code has it: the three backend calls are made on the
    cleaned word, in the order noun, verb, French; the first that raises
    ends the request with its exception, and the request is answered only
    when all three have returned. *)
Theorem translate_word_api_propagates_backend_failure word :
  ∃ answer : string → string → list string → response,
    translate_word_api EN_FR_LINES FR_EN_LINES lemmatize nlp order word
    = noun_lemma ← lemmatize (clean_input word) NOUN;
      verb_lemma ← lemmatize (clean_input word) VERB;
      doc ← nlp (clean_input word);
      Ok (answer noun_lemma verb_lemma doc).
Proof.
  eexists (λ noun_lemma verb_lemma doc, _).
  unfold translate_word_api, search_results, forward_results, lemma_results,
    lemmatize_word_english, lemmatize_word_french.
  destruct (lemmatize (clean_input word) NOUN) as [noun_lemma|e]; [|done].
  destruct (lemmatize (clean_input word) VERB) as [verb_lemma|e]; [|done].
  destruct (nlp (clean_input word)) as [doc|e]; [|done].
  cbn. reflexivity.
Qed.

(** The handler's calls of the resolver always return: [resolve] never
    takes its last branch. *)
Lemma resolve_returns (index : gmap string (list string)) word :
  ∃ visited,
    find_lines_in_index index word ∅ = Some (resolve index word, visited).
Proof.
  pose proof (budget_le_size index ∅).
  destruct (find_lines_fuel_returns index (S (size index)) word ∅)
    as (results & visited & Hr & _); [lia|].
  exists visited. unfold resolve, find_lines_in_index. by rewrite Hr.
Qed.

(** ** An empty cleaned word *)

Lemma resolve_absent (index : gmap string (list string)) word :
  Str.lower word ∉ dom index → resolve index word = [].
Proof.
  intros Hk. apply not_elem_of_dom in Hk.
  unfold resolve, find_lines_in_index. cbn [find_lines_fuel].
  rewrite bool_decide_false by apply not_elem_of_empty. by rewrite Hk.
Qed.

Lemma reverse_match_empty line :
  Spec.reverse_match "" line ↔ is_Some (Str.split_once "::" line).
Proof.
  unfold Spec.reverse_match.
  destruct (Str.split_once "::" line) as [[before after]|].
  - cbn [Str.lower]. rewrite contains_empty. split; [eauto|done].
  - split; [done|by intros [? [=]]].
Qed.

Lemma letters_after_colon_split line :
  Spec.letters_after_colon line → is_Some (Str.split_once "::" line).
Proof.
  unfold Spec.letters_after_colon.
  destruct (Str.split_once "::" line) as [[before after]|]; [eauto|done].
Qed.

(** C10, the part that holds: when the cleaned word is empty, the empty
    string is a key of neither index and the lemma passes add nothing to
    an empty result list, the search returns every line of both files
    that has a "::" with an ASCII letter after the first one, its two
    sides exchanged, under the label "EN -> FR". *)
Theorem empty_cleaned_word_matches_every_line word :
  clean_input word = "" →
  "" ∉ dom (build_index EN_FR_LINES) →
  "" ∉ dom (build_index FR_EN_LINES) →
  lemma_results EN_FR_LINES FR_EN_LINES lemmatize nlp order "" [] = Ok [] →
  search_results EN_FR_LINES FR_EN_LINES lemmatize nlp order (clean_input word)
  = Ok ((λ line, "EN -> FR: " +:+ Spec.swap_sides line) <$>
          filter (λ line, Spec.letters_after_colon line)
            (EN_FR_LINES ++ FR_EN_LINES)).
Proof.
  intros -> Hen Hfr Hlemma.
  unfold search_results, forward_results, direct_results, en_fr_index,
    fr_en_index.
  rewrite !resolve_absent by done. cbn [direct_matches foldl].
  rewrite Hlemma. cbn. f_equal.
  rewrite reverse_search_spec.
  unfold Spec.reverse_fallback, Spec.guessed_direction.
  rewrite !bool_decide_false by done.
  rewrite list_filter_filter. f_equal. apply list_filter_iff. intros line.
  rewrite reverse_match_empty. split; [tauto|].
  intros Hl. split; [done|]. by apply letters_after_colon_split.
Qed.

(** ** The letters filter *)

(** A result that comes from a line the filter has let through. *)
Local Abbreviation passed cleaned_word res :=
  (∃ line, comes_from EN_FR_LINES FR_EN_LINES cleaned_word line res
           ∧ translation_has_letters line).

Lemma direct_matches_passed cleaned_word label results matches :
  (∀ line, line ∈ matches →
     comes_from EN_FR_LINES FR_EN_LINES cleaned_word line (label +:+ line)) →
  Forall (λ res, passed cleaned_word res) results →
  Forall (λ res, passed cleaned_word res)
    (direct_matches label results matches).
Proof.
  intros Hfrom Hres. rewrite direct_matches_spec.
  apply Forall_app. split; [done|].
  apply Forall_fmap, Forall_forall. intros line [? ?]%list_elem_of_filter.
  exists line. eauto.
Qed.

Lemma lemma_matches_passed cleaned_word label results matches :
  (∀ line, line ∈ matches →
     comes_from EN_FR_LINES FR_EN_LINES cleaned_word line (label +:+ line)) →
  Forall (λ res, passed cleaned_word res) results →
  Forall (λ res, passed cleaned_word res)
    (lemma_matches label results matches).
Proof.
  unfold lemma_matches. revert results.
  induction matches as [|line matches IH]; intros results Hfrom Hres; [done|].
  cbn [foldl]. apply IH; [by intros l ?; apply Hfrom; right|].
  destruct (translation_has_letters line) eqn:E; [|done].
  case_bool_decide; [done|]. apply Forall_app. split; [done|].
  apply Forall_singleton. exists line.
  split; [by apply Hfrom; left|by rewrite E].
Qed.

Lemma lemmatized_pass_passed cleaned_word label index lemmas results :
  (∀ word line, line ∈ resolve index word →
     comes_from EN_FR_LINES FR_EN_LINES cleaned_word line (label +:+ line)) →
  Forall (λ res, passed cleaned_word res) results →
  Forall (λ res, passed cleaned_word res)
    (lemmatized_pass order label index lemmas results).
Proof.
  intros Hfrom. unfold lemmatized_pass. revert results.
  induction (iterate order lemmas) as [|lemma todo IH]; intros results Hres;
    [done|].
  cbn [foldl]. apply IH, lemma_matches_passed; [|done].
  intros line. apply Hfrom.
Qed.

Lemma forward_results_passed cleaned_word results :
  forward_results EN_FR_LINES FR_EN_LINES lemmatize nlp order cleaned_word
  = Ok results →
  Forall (λ res, passed cleaned_word res) results.
Proof.
  unfold forward_results, lemma_results, direct_results, en_fr_index,
    fr_en_index.
  destruct (lemmatize_word_english _ _) as [lemmas_en|]; [|done].
  destruct (lemmatize_word_french _ _) as [lemmas_fr|]; [|done].
  cbn. intros [= <-].
  apply lemmatized_pass_passed; [by econstructor 2|].
  apply lemmatized_pass_passed; [by econstructor 1|].
  apply direct_matches_passed; [by econstructor 2|].
  apply direct_matches_passed; [by econstructor 1|]. constructor.
Qed.

Lemma reverse_search_passed cleaned_word :
  Forall (λ res, passed cleaned_word res)
    (reverse_search EN_FR_LINES FR_EN_LINES cleaned_word).
Proof.
  unfold reverse_search. rewrite !reverse_matches_spec. cbn [app].
  rewrite !find_lines_after_colon_spec, <-fmap_app, <-!filter_app.
  apply Forall_fmap, Forall_forall.
  intros line [? [? ?]%list_elem_of_filter]%list_elem_of_filter.
  exists line. split; [|done]. rewrite rev_label_spec.
  constructor; [|done..].
  unfold Spec.guessed_direction. repeat case_bool_decide; auto.
Qed.

(** C6, as the code has it: every result of the search comes from a
    candidate line (one the resolver has returned, or a line of either
    file that matches in reverse) that the letters filter has let
    through: if the line has a "::", the text after the first one holds an
    ASCII letter; a line without "::" is let through as it is. *)
Theorem search_results_have_letters cleaned_word results res :
  search_results EN_FR_LINES FR_EN_LINES lemmatize nlp order cleaned_word
  = Ok results →
  res ∈ results →
  ∃ line, comes_from EN_FR_LINES FR_EN_LINES cleaned_word line res
          ∧ match Str.split_once "::" line with
            | Some (_, after) => Str.existsb Char.is_ascii_letter after = true
            | None => translation_has_letters line = true
            end.
Proof.
  unfold search_results.
  destruct (forward_results _ _ _ _ _ _) as [forward|] eqn:Ef; [|done].
  cbn. intros [= <-] Hin.
  assert (passed cleaned_word res) as (line & Hfrom & Hlet).
  { apply forward_results_passed in Ef.
    pose proof (reverse_search_passed cleaned_word) as Hrev.
    case_bool_decide; [subst forward; cbn in Hin|].
    - exact (proj1 (Forall_forall _ _) Hrev _ Hin).
    - exact (proj1 (Forall_forall _ _) Ef _ Hin). }
  exists line. split; [done|].
  destruct (Str.split_once "::" line) as [[before after]|] eqn:Es.
  - rewrite <-(translation_has_letters_split _ _ _ Es). by apply Is_true_true.
  - by apply Is_true_true.
Qed.

End Handler.

(** ** The handler on the sample dictionaries *)

Lemma search_results_have_letters_witness :
  ∃ line, comes_from en_fr_sample fr_en_sample "eat" line
            "EN -> FR: eat {v} /it/ :: manger"
          ∧ match Str.split_once "::" line with
            | Some (_, after) => Str.existsb Char.is_ascii_letter after = true
            | None => translation_has_letters line = true
            end.
Proof.
  apply (search_results_have_letters en_fr_sample fr_en_sample
           lemmatize_same nlp_same elements_order "eat"
           ["EN -> FR: eat {v} /it/ :: manger"]).
  - by vm_compute.
  - apply list_elem_of_here.
Defined.

(** C6 as stated fails: "bare {n}" has no "::", so no text after it and no
    letter there, and it is among the results all the same. *)
Lemma line_without_colon_is_included :
  resolve (build_index en_fr_sample) "bare" = ["bare {n}"]
  ∧ search_results en_fr_sample fr_en_sample lemmatize_same nlp_same
      elements_order "bare" = Ok ["EN -> FR: " +:+ "bare {n}"]
  ∧ Str.split_once "::" "bare {n}" = None
  ∧ Spec.letters_after_colon "bare {n}" = false.
Proof. by vm_compute. Qed.

(** C9 as stated fails: with WordNet down the request for "eat" raises,
    where backends that fell back to the word itself would have let it
    answer. *)
Lemma backend_failure_fails_the_request :
  translate_word_api en_fr_sample fr_en_sample lemmatize_down nlp_same
    elements_order "eat"
  = Raise (BackendError "wordnet is not available")
  ∧ translate_word_api en_fr_sample fr_en_sample
      (Spec.lemmatize_or_word lemmatize_down) (Spec.nlp_or_word nlp_same)
      elements_order "eat"
    = Ok {| input_word := "eat"; cleaned_word := "eat";
            translations := ["EN -> FR: eat {v}  :: manger"] |}.
Proof. by vm_compute. Qed.

(** C10 as stated fails for "to ": the trailing space is trimmed before the
    prefix "to " is looked for, so the cleaned word is "to", not empty. *)
Lemma clean_input_of_bare_to :
  clean_input "to " = "to" ∧ clean_input "to " ≠ "".
Proof. by vm_compute. Qed.

Lemma empty_cleaned_word_matches_every_line_witness :
  search_results en_fr_sample fr_en_sample lemmatize_same nlp_same
    elements_order (clean_input "l'")
  = Ok ((λ line, "EN -> FR: " +:+ Spec.swap_sides line) <$>
          filter (λ line, Spec.letters_after_colon line)
            (en_fr_sample ++ fr_en_sample)).
Proof.
  apply (empty_cleaned_word_matches_every_line en_fr_sample fr_en_sample
           lemmatize_same nlp_same elements_order "l'").
  - by vm_compute.
  - by vm_compute.
  - by vm_compute.
  - by vm_compute.
Defined.

Example empty_cleaned_word_results :
  search_results en_fr_sample fr_en_sample lemmatize_same nlp_same
    elements_order (clean_input "l'")
  = Ok ["EN -> FR: manger :: eat {v} /it/"; "EN -> FR: to eat :: manger {v}";
        "EN -> FR: apple :: pomme {f}"].
Proof. by vm_compute. Qed.

(** * Index construction *)

(** ** The headword pattern *)

(** A string of whitespace only is one that [lstrip] empties. *)
Lemma lstrip_spaces_cons (c : ascii) (ws : string) :
  Str.lstrip (String c ws) = "" ↔ Char.isspace c = true ∧ Str.lstrip ws = "".
Proof. cbn. destruct (Char.isspace c); naive_solver. Qed.

Lemma rstrip_app_spaces (x ws : string) :
  Str.lstrip ws = "" → Str.rstrip (x +:+ ws) = Str.rstrip x.
Proof.
  intros Hws. induction x as [|c x IH].
  - change ("" +:+ ws) with ws. induction ws as [|d ws IHws]; [done|].
    apply lstrip_spaces_cons in Hws as [Hd Hws]. cbn.
    by rewrite IHws, Hd.
  - change (String c x +:+ ws) with (String c (x +:+ ws)). cbn. by rewrite IH.
Qed.

Lemma strip_app_spaces (x ws : string) :
  Str.lstrip ws = "" → Str.strip (x +:+ ws) = Str.strip x.
Proof.
  intros Hws. unfold Str.strip. induction x as [|c x IH].
  - change ("" +:+ ws) with ws. by rewrite Hws.
  - change (String c x +:+ ws) with (String c (x +:+ ws)). cbn.
    destruct (Char.isspace c); [done|].
    change (String c (x +:+ ws)) with (String c x +:+ ws).
    by apply rstrip_app_spaces.
Qed.

(** The tail [\s*\{] of the headword pattern. *)
Local Abbreviation brace_tail :=
  (Re.match_at [Re.Atom Char.isspace Re.Star; Re.lit "{"%char]).

(** The tail matches when an opening brace comes after the leading
    whitespace, which is then all the text before the first brace. *)
Lemma brace_tail_some (s : string) (m : Re.matched) :
  brace_tail s = Some m →
  ∃ ws after, Str.split_once "{" s = Some (ws, after) ∧ Str.lstrip ws = "".
Proof.
  revert m. induction s as [|c r IH]; intros m; [done|].
  cbn [Re.match_at Re.greedy Re.lit]. rewrite split_once_char.
  destruct (Char.eqb "{" c) eqn:Eb.
  { intros _. by exists "", r. }
  destruct (Char.isspace c) eqn:Ec; [|done].
  destruct (Re.greedy _ _ r) as [m'|] eqn:Eg; [|done].
  intros _. destruct (IH m') as (ws & after & -> & Hws); [done|].
  exists (String c ws), after. split; [done|]. by apply lstrip_spaces_cons.
Qed.

(** When the tail fails, the subject does not begin with a brace, and if
    it begins with whitespace the tail fails on the rest too. *)
Lemma brace_tail_none (c : ascii) (r : string) :
  brace_tail (String c r) = None →
  Char.eqb "{" c = false
  ∧ (Char.isspace c = true → brace_tail r = None).
Proof.
  cbn [Re.match_at Re.greedy Re.lit].
  destruct (Char.eqb "{" c) eqn:Eb.
  - apply char_eqb_eq in Eb as <-. done.
  - destruct (Char.isspace c); [|done].
    destruct (Re.greedy _ _ r) as [[[|p ps] rest]|] eqn:Eg; [|done..].
    by apply greedy_pieces in Eg.
Qed.

Lemma is_line_cons (c : ascii) (r : string) :
  Spec.is_line (String c r) ↔ Char.dot c = true ∧ Spec.is_line r.
Proof.
  unfold Spec.is_line, Char.dot. cbn [Str.existsb].
  rewrite (Ascii.eqb_sym c). destruct (Ascii.eqb _ c); naive_solver.
Qed.

(** On a line, the lazy group stops at the text before the first brace,
    short of the whitespace that ends it; without a brace nothing
    matches. *)
Lemma lazy_headword (s : string) :
  Spec.is_line s →
  match Re.lazy Char.dot brace_tail s with
  | Some m =>
      ∃ before after ws,
        Str.split_once "{" s = Some (before, after)
        ∧ before = Re.group 0 m +:+ ws ∧ Str.lstrip ws = ""
  | None => Str.split_once "{" s = None
  end.
Proof.
  induction s as [|c r IH]; [done|].
  intros [Hc Hr]%is_line_cons. specialize (IH Hr). cbn [Re.lazy].
  destruct (brace_tail (String c r)) as [[ps rest]|] eqn:Ek.
  { apply brace_tail_some in Ek as (ws & after & Hs & Hws).
    exists ws, after, ws. by rewrite Hs. }
  apply brace_tail_none in Ek as [Hb _]. rewrite Hc, split_once_char, Hb.
  destruct (Re.lazy Char.dot _ r) as [[ps rest]|] eqn:El.
  - destruct ps as [|p ps]; [by apply lazy_pieces in El|].
    destruct IH as (before & after & ws & -> & -> & Hws).
    by exists (String c p +:+ ws), after, ws.
  - by rewrite IH.
Qed.

(** On a line, the key the code computes is the headword of the
    specification. *)
Lemma headword_key_spec (line : string) :
  Spec.is_line line → headword_key line = Spec.headword line.
Proof.
  intros Hline. apply lazy_headword in Hline.
  unfold headword_key, Spec.headword, Re.rmatch, headword_pattern.
  cbn [Re.match_at]. destruct (Re.lazy Char.dot _ line) as [m|].
  - destruct Hline as (before & after & ws & -> & -> & Hws).
    by rewrite strip_app_spaces.
  - by rewrite Hline.
Qed.

(** ** What the files yield *)

Lemma is_line_app (a b : string) :
  Spec.is_line (a +:+ b) ↔ Spec.is_line a ∧ Spec.is_line b.
Proof.
  induction a as [|c a IH]; [by change ("" +:+ b) with b; naive_solver|].
  change (String c a +:+ b) with (String c (a +:+ b)).
  rewrite !is_line_cons, IH. naive_solver.
Qed.

Lemma is_line_lstrip (s : string) :
  Spec.is_line s → Spec.is_line (Str.lstrip s).
Proof.
  induction s as [|c r IH]; [done|]. intros Hs. cbn [Str.lstrip].
  destruct (Char.isspace c); [|done]. by apply IH, (is_line_cons c).
Qed.

Lemma is_line_rstrip (s : string) :
  Spec.is_line s → Spec.is_line (Str.rstrip s).
Proof.
  induction s as [|c r IH]; [done|]. intros [Hc Hr]%is_line_cons.
  specialize (IH Hr). cbn [Str.rstrip].
  destruct (Str.rstrip r) as [|d r'].
  - destruct (Char.isspace c); [done|]. by apply is_line_cons.
  - by apply is_line_cons.
Qed.

(** A line read from a file, once stripped, holds no line feed. *)
Lemma readlines_from_lines (text cur : string) :
  Spec.is_line cur →
  Forall Spec.is_line (Str.strip <$> readlines_from cur text).
Proof.
  assert (∀ cur, Spec.is_line cur →
            Spec.is_line (Str.strip (cur +:+ String "010" ""))) as Hend.
  { intros c Hc. rewrite strip_app_spaces by done.
    by apply is_line_rstrip, is_line_lstrip. }
  revert cur. induction text as [|c rest IH]; intros cur Hcur.
  { cbn. destruct cur; repeat constructor.
    by apply is_line_rstrip, is_line_lstrip. }
  cbn [readlines_from].
  destruct (Ascii.eqb c "010") eqn:Elf.
  { rewrite fmap_cons. constructor; [by apply Hend|by apply IH]. }
  destruct (Ascii.eqb c "013") eqn:Ecr.
  - rewrite fmap_cons. constructor; [by apply Hend|].
    destruct rest as [|d rest']; [by apply IH|].
    destruct (Ascii.eqb d "010") eqn:Ed; [|by apply IH].
    specialize (IH "" eq_refl). cbn [readlines_from] in IH. rewrite Ed in IH.
    rewrite fmap_cons in IH. by apply Forall_cons in IH as [_ ?].
  - apply IH, is_line_app. split; [done|].
    apply is_line_cons. unfold Char.dot. by rewrite Elf.
Qed.

(** What [load_lines] returns is a sequence of lines: the two
    dictionaries of the program hold no line feed. *)
Lemma load_lines_are_lines (file : option string) :
  Forall Spec.is_line (load_lines file).
Proof.
  destruct file as [text|]; [|constructor]. by apply readlines_from_lines.
Qed.

(** ** The buckets *)

Local Abbreviation index_step :=
  (λ (index : gmap string (list string)) (line : string),
     match headword_key line with
     | Some key => setdefault_append key line index
     | None => index
     end).

(** The bucket of a key after a prefix of the file: the lines of that
    prefix with this key, in order, and no bucket when there is none. *)
Local Abbreviation bucket_of keyed lines key :=
  (let bucket := filter (λ line, keyed line = Some key) lines in
   if decide (bucket = []) then None else Some bucket).

Lemma build_index_step (index : gmap string (list string))
    (seen lines : list string) :
  (∀ key, index !! key = bucket_of headword_key seen key) →
  ∀ key, foldl index_step index lines !! key
         = bucket_of headword_key (seen ++ lines) key.
Proof.
  revert index seen.
  induction lines as [|line lines IH]; intros index seen Hinv key.
  { by rewrite app_nil_r. }
  cbn [foldl]. rewrite (cons_middle line seen lines), app_assoc.
  apply IH. clear key. intros key. rewrite filter_app.
  destruct (headword_key line) as [k|] eqn:Ek; last first.
  { rewrite filter_cons_False, filter_nil, app_nil_r by (rewrite Ek; done).
    apply Hinv. }
  unfold setdefault_append. destruct (decide (k = key)) as [->|Hne].
  - rewrite lookup_insert_eq, filter_cons_True, filter_nil by done.
    rewrite Hinv. cbn zeta.
    repeat case_decide; try done;
      match goal with
      | H : _ ++ [_] = [] |- _ => by apply app_eq_nil in H as [_ ?]
      | H : filter _ _ = [] |- _ => by rewrite H
      end.
  - rewrite lookup_insert_ne, filter_cons_False, filter_nil, app_nil_r
      by congruence.
    apply Hinv.
Qed.

Lemma build_index_lookup (lines : list string) (key : string) :
  build_index lines !! key = bucket_of headword_key lines key.
Proof. by apply (build_index_step ∅ [] lines). Qed.

(** C8: on a sequence of lines, the bucket of a key holds the lines whose
    text before the first opening brace, trimmed and lowercased, is that
    key, in file order; a key without such a line has no bucket, so a line
    without a brace is in no bucket and every entry of a bucket is a line
    with one.  The index is built whatever the lines are. *)
Theorem build_index_buckets (lines : list string) (key : string) :
  Forall Spec.is_line lines →
  build_index lines !! key
  = let bucket := filter (λ line, Spec.headword line = Some key) lines in
    if decide (bucket = []) then None else Some bucket.
Proof.
  intros Hlines. rewrite build_index_lookup.
  enough (filter (λ line, headword_key line = Some key) lines
          = filter (λ line, Spec.headword line = Some key) lines) as -> by done.
  induction Hlines as [|line lines Hline _ IH]; [done|].
  rewrite !filter_cons, IH, (headword_key_spec line Hline). done.
Qed.

Lemma build_index_buckets_witness :
  build_index mixed_lines !! "apple"
  = let bucket :=
      filter (λ line, Spec.headword line = Some "apple") mixed_lines in
    if decide (bucket = []) then None else Some bucket.
Proof.
  apply (build_index_buckets mixed_lines "apple").
  repeat (constructor; [reflexivity|]). constructor.
Defined.

Example load_lines_mixed_file : load_lines (Some mixed_file) = mixed_lines.
Proof. by vm_compute. Qed.

Example build_index_mixed_lines :
  build_index mixed_lines !! "apple"
  = Some ["Apple {n} :: pomme"; "apple   {v} :: pommer"]
  ∧ build_index mixed_lines !! "no brace here" = None
  ∧ dom (build_index mixed_lines) = {["apple"; "pear"]}.
Proof. split_and!; by vm_compute. Qed.

(** The hypothesis of C8 is needed: with a line feed before the brace the
    pattern does not match, and the text is not indexed. *)
Example build_index_line_feed :
  build_index [String "a" (String "010" "b {")] = ∅.
Proof. by vm_compute. Qed.

(** * Result normalisation *)

(** ** Trimming *)

Lemma lstrip_no_space_first (s : string) : space_first (Str.lstrip s) = false.
Proof.
  induction s as [|c r IH]; [done|]. cbn.
  destruct (Char.isspace c) eqn:Ec; [done|]. cbn. done.
Qed.

Lemma lstrip_id (s : string) : space_first s = false → Str.lstrip s = s.
Proof. destruct s as [|c r]; [done|]. cbn. by intros ->. Qed.

Lemma rstrip_space_first (s : string) :
  Str.rstrip s ≠ "" → space_first (Str.rstrip s) = space_first s.
Proof.
  destruct s as [|c r]; [done|]. cbn.
  destruct (Str.rstrip r); [|done]. by destruct (Char.isspace c) eqn:Ec.
Qed.

Lemma rstrip_idemp (s : string) : Str.rstrip (Str.rstrip s) = Str.rstrip s.
Proof.
  induction s as [|c r IH]; [done|]. cbn.
  destruct (Str.rstrip r) as [|d r'] eqn:Er.
  - destruct (Char.isspace c) eqn:Ec; [done|]. cbn. by rewrite Ec.
  - cbn [Str.rstrip] in *. by rewrite IH.
Qed.

Lemma strip_idemp (s : string) : Str.strip (Str.strip s) = Str.strip s.
Proof.
  unfold Str.strip.
  destruct (decide (Str.rstrip (Str.lstrip s) = "")) as [->|Hne]; [done|].
  rewrite (lstrip_id (Str.rstrip _)).
  - apply rstrip_idemp.
  - rewrite rstrip_space_first by done. apply lstrip_no_space_first.
Qed.

(** ** The substitution after a closing brace *)

Lemma sub_from_skip (p : Re.regex) (repl : string) (k : nat) (s : string) :
  Re.match_at p "" = None →
  Re.sub_from p repl k s = Re.sub_from p repl 0 (Str.skip k s).
Proof.
  intros Hp. revert s. induction k as [|k IH]; intros s; [by destruct s|].
  destruct s as [|c r]; cbn; [by rewrite Hp|]. apply IH.
Qed.

(** Greedy whitespace at the end of a pattern takes what [lstrip] drops. *)
Lemma greedy_spaces (s : string) :
  ∃ ws, Re.greedy Char.isspace (λ s, Some ([], s)) s = Some ([ws], Str.lstrip s)
        ∧ Str.skip (String.length ws) s = Str.lstrip s.
Proof.
  induction s as [|c r (ws & IH & Hskip)]; cbn [Re.greedy Str.lstrip].
  { by exists "". }
  destruct (Char.isspace c) eqn:Ec.
  - rewrite IH. by exists (String c ws).
  - by exists "".
Qed.

Lemma remove_extra_spaces_nil : remove_extra_spaces "" = "".
Proof. done. Qed.

(** [remove_extra_spaces], one character at a time. *)
Lemma remove_extra_spaces_cons (c : ascii) (r : string) :
  remove_extra_spaces (String c r)
  = if Char.eqb "}" c && space_first r
    then "} " +:+ remove_extra_spaces (Str.lstrip r)
    else String c (remove_extra_spaces r).
Proof.
  unfold remove_extra_spaces, Re.sub, brace_spaces_pattern.
  cbn [Re.sub_from Re.match_at Re.lit].
  destruct (Char.eqb "}" c); [|done].
  destruct r as [|d r']; [done|]. cbn [space_first andb].
  destruct (Char.isspace d) eqn:Ed; [|done].
  destruct (greedy_spaces r') as (ws & -> & Hskip).
  cbn. rewrite Ed. rewrite Nat.add_0_r, sub_from_skip by done. by rewrite Hskip.
Qed.

Lemma string_length_ind (P : string → Prop) :
  (∀ s, (∀ t, String.length t < String.length s → P t) → P s) → ∀ s, P s.
Proof.
  intros H s. remember (String.length s) as n eqn:Hn. revert s Hn.
  induction n as [n IH] using lt_wf_ind. intros s ->.
  apply H. intros t Ht. by apply (IH _ Ht).
Qed.

Lemma length_lstrip (s : string) :
  String.length (Str.lstrip s) ≤ String.length s.
Proof.
  induction s as [|c r IH]; [done|]. cbn.
  destruct (Char.isspace c); cbn; lia.
Qed.

Lemma space_first_remove_extra_spaces (s : string) :
  space_first (remove_extra_spaces s) = space_first s.
Proof.
  destruct s as [|c r]; [done|]. rewrite remove_extra_spaces_cons.
  destruct (Char.eqb "}" c) eqn:Ec; [|done].
  apply char_eqb_eq in Ec as <-. by destruct (space_first r).
Qed.

(** What [remove_extra_spaces] returns is tidy. *)
Lemma remove_extra_spaces_tidy (s : string) :
  tidy (remove_extra_spaces s) = true.
Proof.
  induction s as [s IH] using string_length_ind.
  destruct s as [|c r]; [done|]. rewrite remove_extra_spaces_cons.
  destruct (Char.eqb "}" c) eqn:Ec; cbn [andb].
  - destruct (space_first r) eqn:Er.
    + change ("} " +:+ ?x) with (String "}" (String " " x)).
      cbn. rewrite space_first_remove_extra_spaces.
      rewrite lstrip_no_space_first, IH; [done|].
      pose proof (length_lstrip r). cbn. lia.
    + cbn [tidy]. unfold brace_ok. rewrite Ec, IH by (cbn; lia).
      pose proof (space_first_remove_extra_spaces r) as Hr. rewrite Er in Hr.
      destruct (remove_extra_spaces r) as [|d r']; [done|].
      cbn in Hr. by rewrite Hr.
  - cbn [tidy]. unfold brace_ok. rewrite Ec, IH by (cbn; lia). done.
Qed.

Lemma tidy_tail (c : ascii) (r : string) :
  tidy (String c r) = true → tidy r = true.
Proof. cbn. by intros [_ ?]%andb_prop. Qed.

(** On a tidy text [remove_extra_spaces] changes nothing. *)
Lemma remove_extra_spaces_fixed (s : string) :
  tidy s = true → remove_extra_spaces s = s.
Proof.
  induction s as [s IH] using string_length_ind.
  destruct s as [|c r]; [done|]. intros Ht.
  rewrite remove_extra_spaces_cons.
  pose proof Ht as [Hb Hr]%andb_prop. unfold brace_ok in Hb.
  destruct (Char.eqb "}" c) eqn:Ec; cbn [andb]; last first.
  { by rewrite IH by (done || cbn; lia). }
  destruct r as [|d r']; [done|]. cbn [space_first].
  destruct (Char.isspace d) eqn:Ed; last first.
  { by rewrite IH by (done || cbn; lia). }
  cbn in Hb. apply andb_prop in Hb as [Hd Hr'].
  apply char_eqb_eq in Hd as <-. apply char_eqb_eq in Ec as <-.
  apply negb_true_iff in Hr'.
  cbn [Str.lstrip]. rewrite Ed, (lstrip_id r') by done.
  rewrite IH; [done|cbn; lia|by apply tidy_tail in Hr].
Qed.

Lemma tidy_lstrip (s : string) : tidy s = true → tidy (Str.lstrip s) = true.
Proof.
  induction s as [|c r IH]; [done|]. intros Ht. cbn [Str.lstrip].
  destruct (Char.isspace c); [|done]. by apply IH, (tidy_tail c).
Qed.

Lemma brace_ok_rstrip (c : ascii) (r : string) :
  brace_ok c r = true → brace_ok c (Str.rstrip r) = true.
Proof.
  unfold brace_ok. destruct (Char.eqb "}" c); [|done].
  destruct r as [|d t]; [done|]. cbn [Str.rstrip].
  destruct (Char.isspace d) eqn:Ed; cbn [negb orb].
  - intros [Hd Ht]%andb_prop.
    destruct (Str.rstrip t) as [|e t'] eqn:Et; [done|].
    rewrite Ed, Hd. cbn [negb orb andb].
    rewrite <-Et, rstrip_space_first by (by rewrite Et). done.
  - intros _. destruct (Str.rstrip t); by rewrite Ed.
Qed.

Lemma tidy_rstrip (s : string) : tidy s = true → tidy (Str.rstrip s) = true.
Proof.
  induction s as [|c r IH]; [done|]. intros [Hb Hr]%andb_prop.
  specialize (IH Hr). apply brace_ok_rstrip in Hb. cbn [Str.rstrip].
  destruct (Str.rstrip r) as [|d r'] eqn:Er.
  - destruct (Char.isspace c); [done|]. cbn. unfold brace_ok.
    by destruct (Char.eqb "}" c).
  - change (tidy (String c (String d r')))
      with (brace_ok c (String d r') && tidy (String d r')).
    by rewrite Hb, IH.
Qed.

Lemma tidy_strip (s : string) : tidy s = true → tidy (Str.strip s) = true.
Proof. intros ?. by apply tidy_rstrip, tidy_lstrip. Qed.

(** ** Texts without a slash *)

Lemma no_slash_cons (c : ascii) (r : string) :
  Spec.no_slash (String c r) ↔ Char.eqb "/" c = false ∧ Spec.no_slash r.
Proof. unfold Spec.no_slash. cbn [Str.existsb]. apply orb_false_iff. Qed.

(** ** The loop *)

(** What the loop adds: cleaned results, not seen before, each once. *)
Lemma normalize_loop_adds (results : list string) :
  ∀ (seen : gset string) (deduped : list string),
    ∃ added,
      (foldl normalize_step (seen, deduped) results).2 = deduped ++ added
      ∧ NoDup added
      ∧ (∀ y, y ∈ added →
              (y ∉ seen) ∧ ∃ res, res ∈ results ∧ y = clean_result res).
Proof.
  induction results as [|res results IH]; intros seen deduped.
  { exists []. rewrite app_nil_r. split_and!; [done|constructor|].
    by intros y ?%elem_of_nil. }
  cbn [foldl normalize_step]. case_bool_decide as Hseen.
  - destruct (IH seen deduped) as (added & -> & Hnd & Hadd).
    exists added. split_and!; [done..|].
    intros y Hy. destruct (Hadd y Hy) as (? & r & ? & ->).
    split; [done|]. exists r. split; [by right|done].
  - destruct (IH ({[clean_result res]} ∪ seen) (deduped ++ [clean_result res]))
      as (added & -> & Hnd & Hadd).
    exists (clean_result res :: added). split_and!.
    + by rewrite <-app_assoc.
    + constructor; [|done]. intros Hin.
      apply Hadd in Hin as [Hin _]. set_solver.
    + intros y [->|Hy]%elem_of_cons.
      * split; [done|]. exists res. split; [by left|done].
      * destruct (Hadd y Hy) as (? & r & ? & ->).
        split; [set_solver|]. exists r. split; [by right|done].
Qed.

(** On clean results without repetition the loop adds them all. *)
Lemma normalize_loop_fixed (results : list string) :
  ∀ (seen : gset string) (deduped : list string),
    NoDup results →
    (∀ y, y ∈ results → clean_result y = y ∧ y ∉ seen) →
    (foldl normalize_step (seen, deduped) results).2 = deduped ++ results.
Proof.
  induction results as [|res results IH]; intros seen deduped Hnd Hres.
  { by rewrite app_nil_r. }
  apply NoDup_cons in Hnd as [Hnew Hnd].
  destruct (Hres res) as [Hclean Hseen]; [by left|].
  cbn [foldl normalize_step]. rewrite Hclean, bool_decide_false by done.
  rewrite IH, <-app_assoc; [done..|].
  intros y Hy. destruct (Hres y) as [? ?]; [by right|].
  split; [done|]. set_solver.
Qed.

Example normalize_plain_results :
  normalize plain_results
  = ["EN -> FR: word {n} :: translation"; "FR -> EN: mot {m} :: word"].
Proof. by vm_compute. Qed.

(** * More about strings and the matcher *)

Lemma app_nil_l_s (s : string) : "" +:+ s = s.
Proof. done. Qed.

Lemma app_cons_s (c : ascii) (a b : string) :
  String c a +:+ b = String c (a +:+ b).
Proof. done. Qed.

Lemma app_nil_r_s (s : string) : s +:+ "" = s.
Proof. induction s as [|c r IH]; [done|]. by rewrite app_cons_s, IH. Qed.

Lemma app_assoc_s (a b c : string) : (a +:+ b) +:+ c = a +:+ (b +:+ c).
Proof. induction a as [|x a IH]; [done|]. by rewrite !app_cons_s, IH. Qed.

Lemma length_app_s (a b : string) :
  String.length (a +:+ b) = String.length a + String.length b.
Proof. induction a as [|x a IH]; [done|]. rewrite app_cons_s. cbn. by rewrite IH. Qed.

Lemma grow_some (c : ascii) (m : option Re.matched) (ps : list string)
    (rest : string) :
  Re.grow c m = Some (ps, rest) →
  ∃ p ps', ps = String c p :: ps' ∧ m = Some (p :: ps', rest).
Proof.
  destruct m as [[[|p ps'] rest']|]; [done| |done]. intros [= <- <-]. eauto.
Qed.

(** What a greedy repetition returns: its own piece, of the class, and
    what the rest of the pattern has matched after it. *)
Lemma greedy_sound (f : ascii → bool) (k : string → option Re.matched)
    (s rest : string) (ps : list string) :
  Re.greedy f k s = Some (ps, rest) →
  ∃ p ps' mid, ps = p :: ps' ∧ s = p +:+ mid ∧ all_in f p = true
               ∧ k mid = Some (ps', rest).
Proof.
  revert ps rest. induction s as [|c r IH]; intros ps rest; cbn [Re.greedy].
  { intros (ps' & -> & Hk)%piece_some. by exists "", ps', "". }
  destruct (f c) eqn:Efc.
  - destruct (Re.greedy f k r) as [[ps1 rest1]|] eqn:Eg.
    + intros (p & ps' & -> & [= -> ->])%grow_some.
      destruct (IH _ _ eq_refl) as (p' & ps'' & mid & [= <- <-] & -> & Hp & Hk).
      exists (String c p), ps', mid. split_and!; [done..| |done].
      cbn. by rewrite Efc, Hp.
    + intros (ps' & -> & Hk)%piece_some. by exists "", ps', (String c r).
  - intros (ps' & -> & Hk)%piece_some. by exists "", ps', (String c r).
Qed.

Lemma lazy_sound (f : ascii → bool) (k : string → option Re.matched)
    (s rest : string) (ps : list string) :
  Re.lazy f k s = Some (ps, rest) →
  ∃ p ps' mid, ps = p :: ps' ∧ s = p +:+ mid ∧ all_in f p = true
               ∧ k mid = Some (ps', rest).
Proof.
  revert ps rest. induction s as [|c r IH]; intros ps rest; cbn [Re.lazy].
  { destruct (k "") as [m|] eqn:Ek; [|done].
    intros (ps' & -> & [= ->])%piece_some. by exists "", ps', "". }
  destruct (k (String c r)) as [m|] eqn:Ek.
  { intros (ps' & -> & [= ->])%piece_some. by exists "", ps', (String c r). }
  destruct (f c) eqn:Efc; [|done].
  intros (p & ps' & -> & Hl)%grow_some.
  destruct (IH _ _ Hl) as (p' & ps'' & mid & [= <- <-] & -> & Hp & Hk).
  exists (String c p), ps', mid. split_and!; [done..| |done].
  cbn. by rewrite Efc, Hp.
Qed.

(** A match consumes what its pieces spell, and each piece conforms to
    its atom. *)
Lemma match_at_sound (p : Re.regex) (s rest : string) (ps : list string) :
  Re.match_at p s = Some (ps, rest) →
  s = joined ps +:+ rest ∧ Forall2 conforms p ps.
Proof.
  revert s ps rest. induction p as [|[f q] p IH]; intros s ps rest.
  { intros [= <- <-]. split; [done|constructor]. }
  cbn [Re.match_at]. destruct q.
  - destruct s as [|c r]; [done|]. destruct (f c) eqn:Efc; [|done].
    intros (ps' & -> & [-> Hps]%IH)%piece_some. split; [done|].
    constructor; [|done]. split; [cbn; by rewrite Efc|done].
  - intros (pc & ps' & mid & -> & -> & Hp & [-> Hps]%IH)%greedy_sound.
    split; [cbn; by rewrite app_assoc_s|]. by constructor.
  - destruct s as [|c r]; [done|]. destruct (f c) eqn:Efc; [|done].
    intros (pc & ps' & -> & Hg)%grow_some.
    apply greedy_sound in Hg
      as (pc' & ps'' & mid & [= <- <-] & -> & Hp & [-> Hps]%IH).
    split; [cbn; by rewrite app_assoc_s|].
    constructor; [|done]. split; [cbn; by rewrite Efc, Hp|cbn; lia].
  - intros (pc & ps' & mid & -> & -> & Hp & [-> Hps]%IH)%lazy_sound.
    split; [cbn; by rewrite app_assoc_s|]. by constructor.
Qed.

(** A search finds its match somewhere in the subject. *)
Lemma search_sound (p : Re.regex) (s rest : string) (ps : list string) :
  Re.search p s = Some (ps, rest) →
  ∃ before, s = before +:+ joined ps +:+ rest ∧ Forall2 conforms p ps.
Proof.
  induction s as [|c r IH]; cbn [Re.search].
  - destruct (Re.match_at p "") as [m|] eqn:Em; [|done].
    intros [= ->]. apply match_at_sound in Em as [? ?]. by exists "".
  - destruct (Re.match_at p (String c r)) as [m|] eqn:Em.
    + intros [= ->]. apply match_at_sound in Em as [? ?]. by exists "".
    + intros (before & -> & ?)%IH. by exists (String c before).
Qed.

Lemma match_length_joined (m : Re.matched) :
  Re.match_length m = String.length (joined m.1).
Proof.
  unfold Re.match_length. induction (m.1) as [|p ps IH]; [done|].
  cbn. by rewrite length_app_s, IH.
Qed.

Lemma split_once_unfold (sep s : string) :
  Str.split_once sep s
  = if Str.startswith s sep then Some ("", Str.skip (String.length sep) s)
    else match s with
         | "" => None
         | String c r =>
             match Str.split_once sep r with
             | Some (a, b) => Some (String c a, b)
             | None => None
             end
         end.
Proof. by destruct s. Qed.

Lemma startswith_app (p s : string) : Str.startswith (p +:+ s) p = true.
Proof.
  induction p as [|c p IH]; [apply startswith_empty|].
  rewrite app_cons_s. cbn. rewrite IH.
  by rewrite (proj2 (char_eqb_eq c c) eq_refl).
Qed.

(** A text holds what stands in its middle. *)
Lemma contains_app (sub a b : string) :
  Str.contains sub (a +:+ sub +:+ b) = true.
Proof.
  unfold Str.contains. apply bool_decide_eq_true.
  induction a as [|c a IH].
  - rewrite app_nil_l_s, split_once_unfold, startswith_app. eauto.
  - rewrite app_cons_s, split_once_unfold.
    destruct (Str.startswith _ sub); [eauto|].
    destruct IH as [[x y] ->]. eauto.
Qed.

Lemma contains_skip (sub a b : string) :
  Str.contains sub b = true → Str.contains sub (a +:+ b) = true.
Proof.
  unfold Str.contains. rewrite !bool_decide_eq_true. intros Hb.
  induction a as [|c a IH]; [done|].
  rewrite app_cons_s, split_once_unfold.
  destruct (Str.startswith _ sub); [eauto|].
  destruct IH as [[x y] ->]. eauto.
Qed.

(** * More about loading and indexing *)

Lemma readlines_from_plain (line text cur : string) :
  no_line_break line →
  readlines_from cur (line +:+ text) = readlines_from (cur +:+ line) text.
Proof.
  unfold no_line_break. revert cur.
  induction line as [|c line IH]; intros cur Hline.
  { by rewrite app_nil_l_s, app_nil_r_s. }
  cbn [Str.existsb] in Hline.
  apply orb_false_iff in Hline as [[Hlf Hcr]%orb_false_iff Hline].
  rewrite app_cons_s. cbn [readlines_from]. rewrite Hlf, Hcr, IH by done.
  by rewrite app_assoc_s.
Qed.

Lemma readlines_from_line_feed (cur text : string) :
  readlines_from cur (String "010" text)
  = (cur +:+ String "010" "") :: readlines_from "" text.
Proof. done. Qed.

(** X1: lines without a line break, written one per line, are read back
    as they are but for the whitespace at their ends. *)
Theorem load_lines_write_lines (lines : list string) :
  Forall no_line_break lines →
  load_lines (Some (write_lines lines)) = Str.strip <$> lines.
Proof.
  intros Hlines. unfold load_lines, write_lines.
  induction Hlines as [|line lines Hline _ IH]; [done|].
  rewrite !fmap_cons. cbn [joined foldr].
  rewrite app_assoc_s, readlines_from_plain, app_nil_l_s by done.
  rewrite app_cons_s, app_nil_l_s, readlines_from_line_feed.
  fold (joined ((λ line, line +:+ String "010" "") <$> lines)).
  rewrite fmap_cons, IH. by rewrite strip_app_spaces.
Qed.

Lemma load_lines_write_lines_witness :
  load_lines (Some (write_lines mixed_lines)) = Str.strip <$> mixed_lines.
Proof.
  apply (load_lines_write_lines mixed_lines).
  repeat (constructor; [reflexivity|]). constructor.
Defined.

(** X2: a missing file gives no lines, and every line of a file is given
    without a line feed and without whitespace at either end. *)
Theorem load_lines_trimmed (file : option string) :
  load_lines None = []
  ∧ Forall (λ line, Spec.is_line line ∧ Str.strip line = line)
      (load_lines file).
Proof.
  split; [done|]. pose proof (load_lines_are_lines file) as Hlines.
  destruct file as [text|]; [|constructor]. cbn [load_lines] in *.
  induction (readlines_from "" text) as [|l ls IH]; [constructor|].
  rewrite fmap_cons in *. apply Forall_cons in Hlines as [? ?].
  constructor; [|by apply IH]. split; [done|apply strip_idemp].
Qed.

(** ** Keys *)

Lemma char_lower_idemp (c : ascii) : Char.lower (Char.lower c) = Char.lower c.
Proof. destruct c as [[] [] [] [] [] [] [] []]; by vm_compute. Qed.

Lemma char_isspace_lower (c : ascii) :
  Char.isspace (Char.lower c) = Char.isspace c.
Proof. destruct c as [[] [] [] [] [] [] [] []]; by vm_compute. Qed.

Lemma lower_idemp (s : string) : Str.lower (Str.lower s) = Str.lower s.
Proof.
  induction s as [|c r IH]; [done|]. cbn [Str.lower].
  by rewrite char_lower_idemp, IH.
Qed.

Lemma lstrip_lower (s : string) :
  Str.lstrip (Str.lower s) = Str.lower (Str.lstrip s).
Proof.
  induction s as [|c r IH]; [done|]. cbn [Str.lower Str.lstrip].
  rewrite char_isspace_lower. by destruct (Char.isspace c).
Qed.

Lemma rstrip_lower (s : string) :
  Str.rstrip (Str.lower s) = Str.lower (Str.rstrip s).
Proof.
  induction s as [|c r IH]; [done|]. cbn [Str.lower Str.rstrip].
  rewrite IH, char_isspace_lower.
  destruct (Str.rstrip r); cbn [Str.lower]; [|done].
  by destruct (Char.isspace c).
Qed.

Lemma strip_lower (s : string) :
  Str.strip (Str.lower s) = Str.lower (Str.strip s).
Proof. unfold Str.strip. by rewrite lstrip_lower, rstrip_lower. Qed.

Lemma conforms_lit (c : ascii) (p : string) :
  conforms (Re.lit c) p → p = String c "".
Proof.
  intros [Hall Hlen]. cbn in Hall, Hlen.
  destruct p as [|d [|e p]]; [done| |done].
  cbn in Hall. rewrite andb_true_r in Hall. by apply char_eqb_eq in Hall as <-.
Qed.

(** A line with a key has an opening brace, and the key is in lower case
    and trimmed. *)
Lemma headword_key_some (line key : string) :
  headword_key line = Some key →
  Str.contains "{" line = true
  ∧ Str.lower key = key ∧ Str.strip key = key.
Proof.
  unfold headword_key, Re.rmatch.
  destruct (Re.match_at headword_pattern line) as [[ps rest]|] eqn:Em; [|done].
  intros [= <-]. split_and!.
  - apply match_at_sound in Em as [-> Hps]. unfold headword_pattern in Hps.
    apply Forall2_cons_inv_l in Hps as (g & ps1 & _ & Hps & ->).
    apply Forall2_cons_inv_l in Hps as (ws & ps2 & _ & Hps & ->).
    apply Forall2_cons_inv_l in Hps as (b & ps3 & ->%conforms_lit & Hps & ->).
    apply Forall2_nil_inv_l in Hps as ->. cbn [joined foldr].
    rewrite app_nil_r_s, <-(app_assoc_s g ws), app_assoc_s.
    apply contains_app.
  - apply lower_idemp.
  - by rewrite strip_lower, strip_idemp.
Qed.

(** Wherever the headword pattern matches, with or without line feeds in
    the text, its group is the text before the first opening brace, short
    of the whitespace that ends it. *)
Lemma lazy_headword_some (s : string) (m : Re.matched) :
  Re.lazy Char.dot
    (Re.match_at [Re.Atom Char.isspace Re.Star; Re.lit "{"%char]) s = Some m →
  ∃ before after ws,
    Str.split_once "{" s = Some (before, after)
    ∧ before = Re.group 0 m +:+ ws ∧ Str.lstrip ws = "".
Proof.
  revert m. induction s as [|c r IH]; intros m; [done|]. cbn [Re.lazy].
  destruct (Re.match_at _ (String c r)) as [[ps rest]|] eqn:Ek.
  { intros [= <-]. apply brace_tail_some in Ek as (ws & after & Hs & Hws).
    exists ws, after, ws. by rewrite Hs. }
  apply brace_tail_none in Ek as [Hb _]. rewrite split_once_char, Hb.
  destruct (Char.dot c); [|done].
  destruct (Re.lazy Char.dot _ r) as [[ps rest]|] eqn:El; [|done].
  destruct ps as [|p ps]; [by apply lazy_pieces in El|].
  intros [= <-].
  destruct (IH _ eq_refl) as (before & after & ws & -> & -> & Hws).
  by exists (String c p +:+ ws), after, ws.
Qed.

Lemma headword_key_sound (line key : string) :
  headword_key line = Some key → Spec.headword line = Some key.
Proof.
  unfold headword_key, Spec.headword, Re.rmatch, headword_pattern.
  cbn [Re.match_at].
  destruct (Re.lazy Char.dot _ line) as [m|] eqn:El; [|done].
  apply lazy_headword_some in El as (before & after & ws & -> & -> & Hws).
  by rewrite strip_app_spaces.
Qed.

(** X3: whatever the lines, a key of the index is in lower case and
    trimmed, its bucket is not empty, and every line of the bucket is one
    of the lines given, has an opening brace, and the key is the text
    before its first opening brace, trimmed and put in lower case. *)
Theorem build_index_bucket_sound (lines bucket : list string) (key : string) :
  build_index lines !! key = Some bucket →
  Str.lower key = key ∧ Str.strip key = key ∧ bucket ≠ []
  ∧ ∀ line, line ∈ bucket →
            line ∈ lines
            ∧ ∃ before after,
                Str.split_once "{" line = Some (before, after)
                ∧ key = Str.lower (Str.strip before).
Proof.
  rewrite build_index_lookup. cbn zeta. case_decide as Hne; [done|].
  intros [= <-].
  assert (∀ line, line ∈ filter (λ line, headword_key line = Some key) lines →
            line ∈ lines ∧ headword_key line = Some key) as Hall.
  { by intros line [Hk Hin]%list_elem_of_filter. }
  destruct (filter _ lines) as [|line bucket] eqn:Ef; [done|].
  destruct (Hall line) as (_ & Hk); [by left|].
  destruct (headword_key_some _ _ Hk) as (_ & ? & ?). split_and!; [done..|].
  intros l [Hin Hl%headword_key_sound]%Hall. split; [done|].
  unfold Spec.headword in Hl.
  destruct (Str.split_once "{" l) as [[before after]|]; [|done].
  injection Hl as <-. by exists before, after.
Qed.

Lemma build_index_bucket_sound_witness :
  Str.lower "apple" = "apple" ∧ Str.strip "apple" = "apple"
  ∧ ["Apple {n} :: pomme"; "apple   {v} :: pommer"] ≠ []
  ∧ ∀ line, line ∈ ["Apple {n} :: pomme"; "apple   {v} :: pommer"] →
            line ∈ mixed_lines
            ∧ ∃ before after,
                Str.split_once "{" line = Some (before, after)
                ∧ "apple" = Str.lower (Str.strip before).
Proof.
  apply (build_index_bucket_sound mixed_lines
           ["Apple {n} :: pomme"; "apple   {v} :: pommer"] "apple").
  by vm_compute.
Defined.

(** * More about the resolver *)

(** A call of the handler on a headword with a bucket follows the
    redirect policy over that bucket. *)
Lemma resolve_bucket (index : gmap string (list string)) (word : string)
    (bucket : list string) :
  index !! Str.lower word = Some bucket →
  ∃ visited',
    loop_rule index bucket ({[Str.lower word]} ∪ ∅)
      (resolve index word) visited'.
Proof.
  intros Hbucket. pose proof (budget_le_size index ∅) as Hb.
  destruct (find_lines_fuel_returns index (S (size index)) word ∅)
    as (results & visited' & Hr & _); [lia|].
  exists visited'. unfold resolve, find_lines_in_index. rewrite Hr.
  cbn [find_lines_fuel] in Hr.
  rewrite bool_decide_false, Hbucket in Hr by apply not_elem_of_empty.
  apply (bucket_loop_splice index) in Hr as (added & Hadd & Hrule);
    [cbn in Hadd, Hrule; by subst|].
  intros w v r ?. eapply find_lines_fuel_mono; [done|lia].
Qed.

Lemma splice_rule_keeps_plain (index : gmap string (list string))
    (bucket results : list string) (visited visited' : gset string)
    (line : string) :
  loop_rule index bucket visited results visited' →
  line ∈ bucket → see_target line = None → line ∈ results.
Proof.
  intros Hrule. induction Hrule as
    [v|l b v r v' Hl _ IH|l ref rec b v v1 r v' Hl _ _ _ IH
    |l ref b v v1 r v' Hl _ _ IH|l ref rec b v v1 r v' Hl _ _ _ IH];
    intros Hin Hplain.
  - by apply elem_of_nil in Hin.
  - apply elem_of_cons in Hin as [->|Hin]; [by left|]. right. by apply IH.
  - apply elem_of_cons in Hin as [->|Hin]; [congruence|].
    apply elem_of_app. right. by apply IH.
  - apply elem_of_cons in Hin as [->|Hin]; [by left|]. right. by apply IH.
  - apply elem_of_cons in Hin as [->|Hin]; [congruence|]. by apply IH.
Qed.

(** X4: a line indexed and looked up again: a line of the dictionary that
    has a key and no redirect is among the results for its key, in
    whatever case the word is asked for. *)
Theorem resolve_finds_plain_line (lines : list string) (line key word : string) :
  line ∈ lines →
  headword_key line = Some key →
  see_target line = None →
  Str.lower word = key →
  line ∈ resolve (build_index lines) word.
Proof.
  intros Hin Hkey Hplain Hword.
  pose proof (build_index_lookup lines key) as Hb. cbn zeta in Hb.
  assert (line ∈ filter (λ line, headword_key line = Some key) lines) as Hf.
  { by apply list_elem_of_filter. }
  case_decide as Hnil; [rewrite Hnil in Hf; by apply elem_of_nil in Hf|].
  rewrite <-Hword in Hb. apply resolve_bucket in Hb as [visited' Hrule].
  eapply splice_rule_keeps_plain; [exact Hrule| |done]. by rewrite Hword.
Qed.

Lemma resolve_finds_plain_line_witness :
  "apple   {v} :: pommer" ∈ resolve (build_index mixed_lines) "APPLE".
Proof.
  apply (resolve_finds_plain_line mixed_lines "apple   {v} :: pommer"
           "apple" "APPLE").
  - by vm_compute; repeat constructor.
  - by vm_compute.
  - by vm_compute.
  - by vm_compute.
Defined.

Lemma splice_rule_all_plain (index : gmap string (list string))
    (bucket results : list string) (visited visited' : gset string) :
  loop_rule index bucket visited results visited' →
  Forall (λ line, see_target line = None) bucket → results = bucket.
Proof.
  intros Hrule. induction Hrule as
    [v|l b v r v' Hl _ IH|l ref rec b v v1 r v' Hl _ _ _ IH
    |l ref b v v1 r v' Hl _ _ IH|l ref rec b v v1 r v' Hl _ _ _ IH];
    intros Hall; [done|..];
    apply Forall_cons in Hall as [Hplain Hall]; [|congruence..].
  by rewrite IH.
Qed.

(** X5: a headword whose bucket holds no redirect resolves to its bucket,
    line for line in file order. *)
Theorem resolve_bucket_without_redirect (index : gmap string (list string))
    (word : string) (bucket : list string) :
  index !! Str.lower word = Some bucket →
  Forall (λ line, see_target line = None) bucket →
  resolve index word = bucket.
Proof.
  intros [visited' Hrule]%resolve_bucket Hplain.
  by eapply splice_rule_all_plain.
Qed.

Lemma resolve_bucket_without_redirect_witness :
  resolve (build_index mixed_lines) "Apple"
  = ["Apple {n} :: pomme"; "apple   {v} :: pommer"].
Proof.
  apply (resolve_bucket_without_redirect (build_index mixed_lines) "Apple").
  - by vm_compute.
  - repeat (constructor; [by vm_compute|]). constructor.
Defined.

(** ** Where the results come from *)

Local Abbreviation in_index index :=
  (λ line : string, ∃ key bucket, index !! key = Some bucket ∧ line ∈ bucket).

Lemma bucket_loop_in_index (index : gmap string (list string))
    (f : string → gset string → option (list string * gset string))
    (bucket : list string) :
  (∀ word visited r, f word visited = Some r → Forall (in_index index) r.1) →
  Forall (in_index index) bucket →
  ∀ results visited r,
    Forall (in_index index) results →
    foldl (expand_line f) (Some (results, visited)) bucket = Some r →
    Forall (in_index index) r.1.
Proof.
  intros Hf. induction bucket as [|line bucket IH];
    intros Hbucket results visited r Hres.
  { by intros [= <-]. }
  apply Forall_cons in Hbucket as [Hline Hbucket].
  cbn [foldl]. unfold expand_line at 2.
  destruct (see_target line) as [see_ref|].
  - destruct (f see_ref visited) as [[recursed v1]|] eqn:Ef;
      [|by rewrite expand_line_none].
    apply Hf in Ef. cbn in Ef.
    repeat case_match; apply IH; try done; apply Forall_app; split; try done.
    by apply Forall_singleton.
  - apply IH; [done|]. apply Forall_app. split; [done|].
    by apply Forall_singleton.
Qed.

Lemma find_lines_fuel_in_index (index : gmap string (list string))
    (fuel : nat) (word : string) (visited : gset string)
    (r : list string * gset string) :
  find_lines_fuel fuel index word visited = Some r →
  Forall (in_index index) r.1.
Proof.
  revert word visited r. induction fuel as [|fuel IH]; intros word visited r;
    [done|].
  cbn [find_lines_fuel]. case_bool_decide; [by intros [= <-]|].
  destruct (index !! Str.lower word) as [bucket|] eqn:Hb; [|by intros [= <-]].
  apply bucket_loop_in_index; [by apply IH| |done].
  apply Forall_forall. intros line Hin. eauto.
Qed.

(** X6: the resolver invents nothing: every line it returns stands in a
    bucket of the index. *)
Theorem resolve_in_index (index : gmap string (list string)) (word : string) :
  Forall (λ line, ∃ key bucket, index !! key = Some bucket ∧ line ∈ bucket)
    (resolve index word).
Proof.
  destruct (resolve_returns index word) as [visited Hr].
  by apply find_lines_fuel_in_index in Hr.
Qed.

(** ** How much comes back *)

Lemma splice_rule_length (index : gmap string (list string))
    (bucket results : list string) (visited visited' : gset string) :
  loop_rule index bucket visited results visited' →
  length results ≤ 2 * length bucket.
Proof.
  intros Hrule. induction Hrule as
    [v|l b v r v' Hl _ IH|l ref rec b v v1 r v' Hl _ Hlen _ IH
    |l ref b v v1 r v' Hl _ _ IH|l ref rec b v v1 r v' Hl _ _ _ IH];
    cbn [length]; rewrite ?length_app; lia.
Qed.

(** X7: a call of the handler returns at most two lines for each line of
    the headword's bucket, and nothing for a headword without a bucket. *)
Theorem resolve_length (index : gmap string (list string)) (word : string) :
  length (resolve index word)
  ≤ 2 * length (default [] (index !! Str.lower word)).
Proof.
  destruct (index !! Str.lower word) as [bucket|] eqn:Hb.
  - apply resolve_bucket in Hb as [visited' Hrule].
    by eapply splice_rule_length.
  - rewrite resolve_absent; [done|]. by apply not_elem_of_dom.
Qed.

(** * More about the text utilities *)

(** ** Redirects *)

Lemma lower_app (a b : string) :
  Str.lower (a +:+ b) = Str.lower a +:+ Str.lower b.
Proof.
  induction a as [|c a IH]; [done|]. rewrite app_cons_s. cbn [Str.lower].
  by rewrite IH.
Qed.

Lemma conforms_lit_ci (c : ascii) (p : string) :
  conforms (Re.lit_ci c) p →
  ∃ d, p = String d "" ∧ Char.lower d = Char.lower c.
Proof.
  intros [Hall Hlen]. cbn in Hall, Hlen.
  destruct p as [|d [|e p]]; [done| |done].
  cbn in Hall. rewrite andb_true_r in Hall. exists d. split; [done|].
  unfold Char.eqb_ci in Hall. by apply Ascii.eqb_eq in Hall.
Qed.

Lemma lower_colon (d : ascii) : Char.lower d = Char.lower ":" → d = ":"%char.
Proof. destruct d as [[] [] [] [] [] [] [] []]; by vm_compute. Qed.

Lemma is_line_all_dot (s : string) : all_in Char.dot s = true → Spec.is_line s.
Proof.
  induction s as [|c r IH]; [done|]. cbn [all_in].
  intros [Hc Hr]%andb_prop. apply is_line_cons. auto.
Qed.

Lemma lstrip_all_space (ws : string) :
  all_in Char.isspace ws = true → Str.lstrip ws = "".
Proof.
  induction ws as [|c ws IH]; [done|]. cbn.
  intros [-> ?]%andb_prop. auto.
Qed.

Lemma lstrip_app_spaces (ws x : string) :
  all_in Char.isspace ws = true → Str.lstrip (ws +:+ x) = Str.lstrip x.
Proof.
  induction ws as [|c ws IH]; [done|]. rewrite app_cons_s. cbn.
  intros [-> ?]%andb_prop. auto.
Qed.

(** X8: a redirect is found only where the line holds "see:", in whatever
    case, and "::" somewhere after it; the phrase handed over is the text
    between the two, trimmed, and holds no line feed.  So a "SEE:" that no
    "::" follows is no redirect. *)
Theorem extract_see_reference_some (line ref : string) :
  extract_see_reference line = Some ref →
  ∃ before see mid rest,
    line = before +:+ see +:+ mid +:+ "::" +:+ rest
    ∧ Str.lower see = "see:"
    ∧ ref = Str.strip mid ∧ Spec.is_line ref.
Proof.
  unfold extract_see_reference.
  destruct (Re.search see_pattern line) as [[ps rest]|] eqn:Es; [|done].
  intros [= <-]. apply search_sound in Es as (before & -> & Hps).
  unfold see_pattern in Hps.
  apply Forall2_cons_inv_l in Hps
    as (p1 & ps1 & (s & -> & Hs)%conforms_lit_ci & Hps & ->).
  apply Forall2_cons_inv_l in Hps
    as (p2 & ps2 & (e1 & -> & He1)%conforms_lit_ci & Hps & ->).
  apply Forall2_cons_inv_l in Hps
    as (p3 & ps3 & (e2 & -> & He2)%conforms_lit_ci & Hps & ->).
  apply Forall2_cons_inv_l in Hps
    as (p4 & ps4 & (c & -> & Hc)%conforms_lit_ci & Hps & ->).
  apply Forall2_cons_inv_l in Hps as (ws1 & ps5 & [Hws1 _] & Hps & ->).
  apply Forall2_cons_inv_l in Hps as (g & ps6 & [Hg _] & Hps & ->).
  apply Forall2_cons_inv_l in Hps as (ws2 & ps7 & [Hws2 _] & Hps & ->).
  apply Forall2_cons_inv_l in Hps
    as (p8 & ps8 & (c1 & -> & Hc1)%conforms_lit_ci & Hps & ->).
  apply Forall2_cons_inv_l in Hps
    as (p9 & ps9 & (c2 & -> & Hc2)%conforms_lit_ci & Hps & ->).
  apply Forall2_nil_inv_l in Hps as ->.
  apply lower_colon in Hc1 as ->. apply lower_colon in Hc2 as ->.
  cbn [joined foldr Re.group fst lookup list_lookup default from_option].
  unfold id. cbn in Hws1, Hg, Hws2.
  exists before, (String s (String e1 (String e2 (String c "")))),
    (ws1 +:+ g +:+ ws2), rest.
  split_and!.
  - f_equal.
    by repeat (rewrite app_assoc_s || rewrite app_cons_s
               || rewrite app_nil_l_s || rewrite app_nil_r_s).
  - cbn [Str.lower]. by rewrite Hs, He1, He2, Hc.
  - unfold Str.strip at 2. rewrite lstrip_app_spaces by done.
    fold (Str.strip (g +:+ ws2)).
    by rewrite strip_app_spaces by by apply lstrip_all_space.
  - apply is_line_rstrip, is_line_lstrip, is_line_all_dot, Hg.
Qed.

Lemma extract_see_reference_some_witness :
  ∃ before see mid rest,
    "apple {} :: See:  le fruit  ::" = before +:+ see +:+ mid +:+ "::" +:+ rest
    ∧ Str.lower see = "see:"
    ∧ "le fruit" = Str.strip mid ∧ Spec.is_line "le fruit".
Proof.
  apply (extract_see_reference_some "apple {} :: See:  le fruit  ::" "le fruit").
  by vm_compute.
Defined.

Lemma greedy_complete (f : ascii → bool) (k : string → option Re.matched)
    (p t : string) :
  all_in f p = true → is_Some (k t) → is_Some (Re.greedy f k (p +:+ t)).
Proof.
  intros Hp [[ps rest] Hk].
  assert (is_Some (Re.greedy f k t)) as Ht.
  { destruct t as [|c r]; cbn [Re.greedy]; [by rewrite Hk|].
    destruct (f c); [|by rewrite Hk].
    destruct (Re.greedy f k r) as [[[|q qs] rest']|] eqn:Eg;
      [by apply greedy_pieces in Eg|done|by rewrite Hk]. }
  induction p as [|c p IH]; [done|].
  apply andb_prop in Hp as [Hc Hp]. rewrite app_cons_s. cbn [Re.greedy].
  rewrite Hc. destruct (IH Hp) as [[[|q qs] rest'] Eg];
    [by apply greedy_pieces in Eg|]. by rewrite Eg.
Qed.

Lemma lazy_complete (f : ascii → bool) (k : string → option Re.matched)
    (p t : string) :
  all_in f p = true → is_Some (k t) → is_Some (Re.lazy f k (p +:+ t)).
Proof.
  intros Hp [[ps rest] Hk]. induction p as [|c p IH].
  { rewrite app_nil_l_s. destruct t; cbn [Re.lazy]; by rewrite Hk. }
  apply andb_prop in Hp as [Hc Hp]. rewrite app_cons_s. cbn [Re.lazy].
  destruct (k (String c (p +:+ t))) as [[qs rest']|]; [done|].
  rewrite Hc. destruct (IH Hp) as [[[|q qs] rest'] El];
    [by apply lazy_pieces in El|]. by rewrite El.
Qed.

Lemma search_complete (p : Re.regex) (before t : string) :
  is_Some (Re.match_at p t) → is_Some (Re.search p (before +:+ t)).
Proof.
  intros [m Hm]. induction before as [|c before IH].
  - rewrite app_nil_l_s. destruct t; cbn [Re.search]; by rewrite Hm.
  - rewrite app_cons_s. cbn [Re.search].
    by destruct (Re.match_at p (String c (before +:+ t))).
Qed.

Lemma all_dot_is_line (s : string) : Spec.is_line s → all_in Char.dot s = true.
Proof.
  induction s as [|c r IH]; [done|]. intros [Hc Hr]%is_line_cons.
  cbn [all_in]. by rewrite Hc, IH.
Qed.

(** X9: on a line, a "see:" in whatever case that a "::" follows
    somewhere is always taken for a redirect. *)
Theorem extract_see_reference_complete (line before see mid rest : string) :
  Spec.is_line line →
  line = before +:+ see +:+ mid +:+ "::" +:+ rest →
  Str.lower see = "see:" →
  is_Some (extract_see_reference line).
Proof.
  intros Hline -> Hsee.
  apply is_line_app in Hline as [_ [_ [Hmid _]%is_line_app]%is_line_app].
  apply all_dot_is_line in Hmid.
  destruct see as [|s [|e1 [|e2 [|c [|? ?]]]]]; try done.
  injection Hsee as Hs He1 He2 Hc.
  enough (is_Some (Re.search see_pattern
            (before +:+ String s (String e1 (String e2 (String c "")))
             +:+ mid +:+ "::" +:+ rest))) as [m Hm].
  { unfold extract_see_reference. rewrite Hm. eauto. }
  apply search_complete. rewrite !app_cons_s, app_nil_l_s.
  unfold see_pattern, Re.lit_ci. cbn [Re.match_at].
  unfold Char.eqb_ci at 1 2 3 4. rewrite Hs, He1, He2, Hc.
  change (Ascii.eqb (Char.lower "S") "s") with true.
  change (Ascii.eqb (Char.lower "E") "e") with true.
  change (Ascii.eqb (Char.lower ":") ":") with true. cbn iota.
  assert (∀ q t, is_Some t → is_Some (Re.piece q t)) as Hp.
  { by intros q [[??]|] [? ?]. }
  do 4 apply Hp.
  apply (greedy_complete _ _ "" _ eq_refl).
  apply lazy_complete; [done|].
  apply (greedy_complete _ _ "" _ eq_refl). vm_compute. by eexists.
Qed.

Lemma extract_see_reference_complete_witness :
  is_Some (extract_see_reference "apple {} :: See:  le fruit  ::").
Proof.
  apply (extract_see_reference_complete "apple {} :: See:  le fruit  ::"
           "apple {} :: " "See:" "  le fruit  " "").
  - reflexivity.
  - reflexivity.
  - reflexivity.
Defined.

(** ** Phonetic annotations *)

Lemma sub_no_match (p : Re.regex) (repl s : string) :
  Re.search p s = None → Re.sub p repl s = s.
Proof.
  unfold Re.sub. induction s as [|c r IH]; cbn [Re.search Re.sub_from].
  - by destruct (Re.match_at p "").
  - destruct (Re.match_at p (String c r)); [done|]. intros ?. by rewrite IH.
Qed.

Lemma length_sub_from (p : Re.regex) (k : nat) (s : string) :
  String.length (Re.sub_from p "" k s) ≤ String.length s.
Proof.
  revert k. induction s as [|c r IH]; intros k.
  { destruct k; cbn; [|done]. by destruct (Re.match_at p ""). }
  destruct k as [|k]; cbn [Re.sub_from String.length].
  - destruct (Re.match_at p (String c r)) as [m|].
    + destruct (Re.match_length m) as [|k].
      * rewrite app_nil_l_s. cbn. specialize (IH 0). lia.
      * rewrite app_nil_l_s. specialize (IH k). lia.
    + cbn. specialize (IH 0). lia.
  - specialize (IH k). lia.
Qed.

Lemma length_sub_shorter (p : Re.regex) (s : string) :
  (∀ t m, Re.match_at p t = Some m → Re.match_length m ≠ 0) →
  is_Some (Re.search p s) →
  String.length (Re.sub p "" s) < String.length s.
Proof.
  intros Hp. unfold Re.sub.
  induction s as [|c r IH]; cbn [Re.search Re.sub_from String.length].
  - destruct (Re.match_at p "") as [[ps rest]|] eqn:Em; [|by intros [? ?]].
    intros _. pose proof (Hp _ _ Em) as Hm.
    rewrite match_length_joined in Hm. cbn in Hm.
    apply match_at_sound in Em as [Hj _].
    apply (f_equal String.length) in Hj. rewrite length_app_s in Hj.
    cbn in Hj. unfold joined in *. lia.
  - destruct (Re.match_at p (String c r)) as [m|] eqn:Em.
    + intros _. apply Hp in Em.
      destruct (Re.match_length m) as [|k]; [done|].
      rewrite app_nil_l_s. pose proof (length_sub_from p k r). lia.
    + intros Hr%IH. cbn. lia.
Qed.

Lemma all_in_no_slash (b : string) :
  all_in (λ c, negb (Char.eqb "/" c)) b = true ↔ Spec.no_slash b.
Proof.
  unfold Spec.no_slash. induction b as [|c b IH]; [done|]. cbn.
  rewrite andb_true_iff, orb_false_iff, IH, negb_true_iff. done.
Qed.

(** The pattern of [remove_phonetics] is found where there is an
    annotation, and only there. *)
Lemma search_phonetics (s : string) :
  is_Some (Re.search phonetics_pattern s) ↔ has_annotation s.
Proof.
  split.
  - intros [[ps rest] (before & -> & Hps)%search_sound].
    unfold phonetics_pattern in Hps.
    apply Forall2_cons_inv_l in Hps as (p1 & ps1 & ->%conforms_lit & Hps & ->).
    apply Forall2_cons_inv_l in Hps as (b & ps2 & [Hb Hlen] & Hps & ->).
    apply Forall2_cons_inv_l in Hps as (p3 & ps3 & ->%conforms_lit & Hps & ->).
    apply Forall2_nil_inv_l in Hps as ->. cbn in Hb, Hlen.
    exists before, b, rest. split_and!.
    + f_equal. cbn [joined foldr].
      by repeat (rewrite app_assoc_s || rewrite app_cons_s
                 || rewrite app_nil_l_s || rewrite app_nil_r_s).
    + intros ->. cbn in Hlen. lia.
    + by apply all_in_no_slash.
  - intros (a & b & c & -> & Hne & Hb%all_in_no_slash).
    apply search_complete. destruct b as [|c0 b]; [done|].
    cbn in Hb. apply andb_prop in Hb as [Hc0 Hb].
    unfold phonetics_pattern, Re.lit. cbn [Re.match_at].
    change (Char.eqb "/" "/") with true. cbn iota. rewrite app_cons_s, Hc0.
    destruct (greedy_complete (λ c, negb (Char.eqb "/" c))
                (Re.match_at [Re.Atom (Char.eqb "/") Re.Once]) b
                (String "/" c) Hb) as [[[|q qs] rest] Eg].
    + vm_compute. by eexists.
    + by apply greedy_pieces in Eg.
    + cbn [Re.match_at] in Eg. rewrite Eg. cbn. by eexists.
Qed.

Lemma phonetics_match_length (t : string) (m : Re.matched) :
  Re.match_at phonetics_pattern t = Some m → Re.match_length m ≠ 0.
Proof.
  intros Hm. rewrite match_length_joined. destruct m as [ps rest].
  apply match_at_sound in Hm as [_ Hps]. unfold phonetics_pattern in Hps.
  apply Forall2_cons_inv_l in Hps as (p1 & ps1 & ->%conforms_lit & _ & ->).
  cbn. done.
Qed.

(** X10: [remove_phonetics] leaves a text as it is exactly when the text
    holds no annotation (no two slashes with something but no slash
    between them), and never makes a text longer. *)
Theorem remove_phonetics_unchanged (s : string) :
  (remove_phonetics s = s ↔ ¬ has_annotation s)
  ∧ String.length (remove_phonetics s) ≤ String.length s.
Proof.
  split; [|apply length_sub_from]. rewrite <-search_phonetics. split.
  - intros Heq Hsome.
    apply (length_sub_shorter _ _ phonetics_match_length) in Hsome.
    unfold remove_phonetics in Heq. rewrite Heq in Hsome. lia.
  - intros Hnone. apply sub_no_match.
    destruct (Re.search phonetics_pattern s); [|done]. by destruct Hnone.
Qed.

(** ** Whitespace after a brace *)

(** X11: [remove_extra_spaces] is idempotent, and it leaves a text as it
    is exactly when every closing brace of the text is followed by no
    whitespace, or by one space and no more. *)
Theorem remove_extra_spaces_idempotent (s : string) :
  remove_extra_spaces (remove_extra_spaces s) = remove_extra_spaces s
  ∧ (remove_extra_spaces s = s ↔ tidy s = true).
Proof.
  split; [apply remove_extra_spaces_fixed, remove_extra_spaces_tidy|]. split.
  - intros <-. apply remove_extra_spaces_tidy.
  - apply remove_extra_spaces_fixed.
Qed.

Lemma remove_spaces_lstrip (s : string) :
  remove_spaces (Str.lstrip s) = remove_spaces s.
Proof.
  induction s as [|c r IH]; [done|]. cbn.
  destruct (Char.isspace c) eqn:Ec; [done|]. cbn. by rewrite Ec.
Qed.

(** X12: [remove_extra_spaces] touches whitespace only, and never makes a
    text longer: the characters that are not whitespace come out as they
    went in, in the same order. *)
Theorem remove_extra_spaces_keeps_text (s : string) :
  remove_spaces (remove_extra_spaces s) = remove_spaces s
  ∧ String.length (remove_extra_spaces s) ≤ String.length s.
Proof.
  induction s as [s IH] using string_length_ind.
  destruct s as [|c r]; [done|]. rewrite remove_extra_spaces_cons.
  destruct (Char.eqb "}" c) eqn:Ec; cbn [andb].
  - destruct (space_first r) eqn:Er.
    + apply char_eqb_eq in Ec as <-.
      change ("} " +:+ ?x) with (String "}" (String " " x)).
      pose proof (length_lstrip r) as Hl.
      destruct (IH (Str.lstrip r)) as [IH1 IH2]; [cbn; lia|].
      destruct r as [|d r']; [done|]. split.
      * cbn [remove_spaces]. change (Char.isspace "}") with false.
        change (Char.isspace " ") with true. cbn iota.
        by rewrite IH1, remove_spaces_lstrip.
      * cbn [String.length] in *. cbn in Er. cbn [Str.lstrip] in *.
        rewrite Er in *. pose proof (length_lstrip r'). lia.
    + destruct (IH r) as [IH1 IH2]; [cbn; lia|].
      cbn [remove_spaces String.length]. rewrite IH1. split; [done|lia].
  - destruct (IH r) as [IH1 IH2]; [cbn; lia|].
    cbn [remove_spaces String.length]. rewrite IH1. split; [done|lia].
Qed.

(** * More about normalisation *)

Lemma normalize_loop_first_occurrences (results : list string) :
  ∀ (seen : gset string) (deduped : list string),
    (foldl normalize_step (seen, deduped) results).2
    = deduped ++ first_occurrences seen (clean_result <$> results).
Proof.
  induction results as [|res results IH]; intros seen deduped.
  { by rewrite app_nil_r. }
  cbn [foldl normalize_step fmap list_fmap first_occurrences].
  case_bool_decide; [done|]. by rewrite IH, <-app_assoc.
Qed.

(** The loop of the handler, as a function: clean, then keep first
    occurrences. *)
Lemma normalize_first_occurrences (results : list string) :
  normalize results = first_occurrences ∅ (clean_result <$> results).
Proof. unfold normalize. by rewrite normalize_loop_first_occurrences. Qed.

Lemma first_occurrences_elem (l : list string) :
  ∀ (seen : gset string) y,
    y ∈ first_occurrences seen l ↔ y ∈ l ∧ y ∉ seen.
Proof.
  induction l as [|x l IH]; intros seen y; cbn [first_occurrences].
  { split; [by intros ?%elem_of_nil|by intros [?%elem_of_nil _]]. }
  case_bool_decide as Hx.
  - rewrite IH, elem_of_cons. naive_solver.
  - rewrite !elem_of_cons, IH. split.
    + intros [->|[? ?]]; [by split; [left|]|].
      split; [by right|]. intros ?. set_solver.
    + intros [[->|?] ?]; [by left|].
      destruct (decide (y = x)) as [->|Hne]; [by left|].
      right. split; [done|]. set_solver.
Qed.

Lemma first_occurrences_NoDup (l : list string) :
  ∀ seen : gset string, NoDup (first_occurrences seen l).
Proof.
  induction l as [|x l IH]; intros seen; cbn [first_occurrences].
  { constructor. }
  case_bool_decide; [done|]. constructor; [|done].
  rewrite first_occurrences_elem. set_solver.
Qed.

Lemma first_occurrences_length (l : list string) :
  ∀ seen : gset string, length (first_occurrences seen l) ≤ length l.
Proof.
  induction l as [|x l IH]; intros seen; cbn [first_occurrences length]; [done|].
  case_bool_decide; [specialize (IH seen)|specialize (IH ({[x]} ∪ seen))];
    cbn [length]; lia.
Qed.

Lemma first_occurrences_app (l1 l2 : list string) :
  ∀ seen : gset string,
    first_occurrences seen (l1 ++ l2)
    = first_occurrences seen l1
      ++ first_occurrences (list_to_set l1 ∪ seen) l2.
Proof.
  induction l1 as [|x l1 IH]; intros seen.
  { cbn. by rewrite (left_id_L ∅ (∪)). }
  cbn [app first_occurrences list_to_set]. case_bool_decide as Hx.
  - rewrite IH. do 2 f_equal. set_solver.
  - rewrite IH. cbn [app]. do 3 f_equal. set_solver.
Qed.

Lemma first_occurrences_filter (l : list string) :
  ∀ seen1 seen2 : gset string,
    first_occurrences (seen1 ∪ seen2) l
    = filter (λ y, y ∉ seen1) (first_occurrences seen2 l).
Proof.
  induction l as [|x l IH]; intros seen1 seen2; cbn [first_occurrences]; [done|].
  destruct (decide (x ∈ seen2)) as [H2|H2].
  - rewrite !bool_decide_true by set_solver. apply IH.
  - rewrite (bool_decide_false (x ∈ seen2)) by done.
    destruct (decide (x ∈ seen1)) as [H1|H1].
    + rewrite bool_decide_true, filter_cons_False by set_solver.
      rewrite <-IH. f_equal. set_solver.
    + rewrite bool_decide_false, filter_cons_True by set_solver.
      rewrite <-IH. do 2 f_equal. set_solver.
Qed.

Lemma clean_result_trimmed (res : string) :
  Str.strip (clean_result res) = clean_result res.
Proof. apply strip_idemp. Qed.

(** X13: what normalisation returns has no string twice; its strings are
    the cleaned forms of the results given, all of them and no other,
    each without whitespace at its ends; and there are no more of them
    than results given. *)
Theorem normalize_distinct (results : list string) :
  NoDup (normalize results)
  ∧ (∀ y, y ∈ normalize results ↔ ∃ res, res ∈ results ∧ y = clean_result res)
  ∧ Forall (λ y, Str.strip y = y) (normalize results)
  ∧ length (normalize results) ≤ length results.
Proof.
  rewrite normalize_first_occurrences.
  assert (∀ y, y ∈ first_occurrences ∅ (clean_result <$> results)
               ↔ ∃ res, res ∈ results ∧ y = clean_result res) as Helem.
  { intros y. rewrite first_occurrences_elem, list_elem_of_fmap.
    split; [intros [(res & -> & ?) _]; eauto|].
    intros (res & ? & ->). split; [eauto|apply not_elem_of_empty]. }
  split_and!; [apply first_occurrences_NoDup|done| |].
  - apply Forall_forall. intros y (res & _ & ->)%Helem.
    apply clean_result_trimmed.
  - etrans; [apply first_occurrences_length|]. by rewrite length_fmap.
Qed.

(** X14: normalising two sequences one after the other: the second adds,
    in its own order, what the first has not given already. *)
Theorem normalize_app (results1 results2 : list string) :
  normalize (results1 ++ results2)
  = normalize results1
    ++ filter (λ y, y ∉ normalize results1) (normalize results2).
Proof.
  rewrite !normalize_first_occurrences, fmap_app, first_occurrences_app.
  f_equal. rewrite first_occurrences_filter. apply list_filter_iff.
  intros y. rewrite first_occurrences_elem, elem_of_list_to_set. set_solver.
Qed.

Lemma normalize_nil (results : list string) :
  normalize results = [] ↔ results = [].
Proof.
  split; [|by intros ->]. rewrite normalize_first_occurrences.
  destruct results as [|res results]; [done|].
  cbn [fmap list_fmap first_occurrences].
  by rewrite bool_decide_false by apply not_elem_of_empty.
Qed.

(** * More about cleaning and the handler *)

(** ** The cleaned word *)

Lemma lower_skip (n : nat) (s : string) :
  Str.lower (Str.skip n s) = Str.skip n (Str.lower s).
Proof. revert s. induction n as [|n IH]; intros [|c r]; cbn; auto. Qed.

Lemma rstrip_tail (c : ascii) (r : string) :
  Str.rstrip (String c r) = String c r → Str.rstrip r = r.
Proof.
  cbn. destruct (Str.rstrip r) as [|d r'] eqn:Er.
  - destruct (Char.isspace c); [done|]. by intros [= <-].
  - by intros [= <-].
Qed.

Lemma rstrip_skip (n : nat) (s : string) :
  Str.rstrip s = s → Str.rstrip (Str.skip n s) = Str.skip n s.
Proof.
  revert s. induction n as [|n IH]; intros [|c r] Hs; cbn; try done.
  by apply IH, (rstrip_tail c).
Qed.

Lemma length_skip (n : nat) (s : string) :
  String.length (Str.skip n s) ≤ String.length s.
Proof.
  revert s. induction n as [|n IH]; intros [|c r]; cbn; try done.
  specialize (IH r). lia.
Qed.

Lemma removeprefix_skip (p s : string) :
  ∃ n, Spec.removeprefix p s = Str.skip n s.
Proof.
  unfold Spec.removeprefix. destruct (Str.startswith s p); [eauto|by exists 0].
Qed.

Lemma skip_skip (n m : nat) (s : string) :
  Str.skip n (Str.skip m s) = Str.skip (m + n) s.
Proof.
  revert s. induction m as [|m IH]; intros s; [done|].
  destruct s as [|c r]; [by destruct n|]. apply IH.
Qed.

(** X15: the cleaned word is the trimmed, lowercased input less some
    characters at its front: it is in lower case, has no whitespace at its
    end and is no longer than the trimmed, lowercased input. *)
Theorem clean_input_shape (word : string) :
  (∃ n, clean_input word = Str.skip n (Str.lower (Str.strip word)))
  ∧ Str.lower (clean_input word) = clean_input word
  ∧ Str.rstrip (clean_input word) = clean_input word
  ∧ String.length (clean_input word)
    ≤ String.length (Str.lower (Str.strip word)).
Proof.
  assert (∃ n, clean_input word = Str.skip n (Str.lower (Str.strip word)))
    as [n Hn].
  { unfold clean_input. rewrite foldl_articles. cbn zeta.
    set (w0 := Str.lower (Str.strip word)).
    assert (∃ n1, (if Str.startswith w0 "to " then Str.skip 3 w0 else w0)
                  = Str.skip n1 w0) as [n1 ->].
    { destruct (Str.startswith w0 "to "); [by exists 3|by exists 0]. }
    destruct (removeprefix_skip "le " (Str.skip n1 w0)) as [n2 ->].
    destruct (removeprefix_skip "la " (Str.skip n2 (Str.skip n1 w0)))
      as [n3 ->].
    destruct (removeprefix_skip "les "
                (Str.skip n3 (Str.skip n2 (Str.skip n1 w0)))) as [n4 ->].
    destruct (removeprefix_skip "l'"
                (Str.skip n4 (Str.skip n3 (Str.skip n2 (Str.skip n1 w0)))))
      as [n5 ->].
    rewrite !skip_skip. eauto. }
  split; [eauto|]. rewrite Hn. split_and!.
  - by rewrite lower_skip, lower_idemp.
  - apply rstrip_skip. unfold Str.strip.
    by rewrite <-rstrip_lower, rstrip_idemp.
  - apply length_skip.
Qed.

(** ** Lemma candidates *)

Lemma size_union_le (X Y : gset string) : size (X ∪ Y) ≤ size X + size Y.
Proof.
  rewrite size_union_alt. apply Nat.add_le_mono_l, subseteq_size. set_solver.
Qed.

(** X16: the word itself is always among the lemma candidates, of which
    there are three at most for English and two at most for French. *)
Theorem lemma_candidates (lemmatize : string → pos → result string)
    (nlp : string → result (list string)) (word : string) :
  match lemmatize_word_english lemmatize word with
  | Ok lemmas => word ∈ lemmas ∧ size lemmas ≤ 3
  | Raise _ => True
  end
  ∧ match lemmatize_word_french nlp word with
    | Ok lemmas => word ∈ lemmas ∧ size lemmas ≤ 2
    | Raise _ => True
    end.
Proof.
  unfold lemmatize_word_english, lemmatize_word_french. split.
  - destruct (lemmatize word NOUN) as [noun|]; [|done].
    destruct (lemmatize word VERB) as [verb|]; [|done]. cbn.
    split; [set_solver|].
    etrans; [apply size_union_le|]. rewrite size_singleton.
    etrans; [apply Nat.add_le_mono_r, size_union_le|].
    rewrite !size_singleton. lia.
  - destruct (nlp word) as [doc|]; [|done]. cbn.
    split; [set_solver|].
    etrans; [apply size_union_le|]. rewrite !size_singleton. lia.
Qed.

(** ** The reverse scan *)

(** X17: the reverse scan keeps lines in file order, takes none without a
    "::", and does not mind the case of the phrase. *)
Theorem find_lines_after_colon_sublist (lines : list string) (phrase : string) :
  find_lines_after_colon_from_lines lines phrase `sublist_of` lines
  ∧ Forall (λ line, Str.contains "::" line = true)
      (find_lines_after_colon_from_lines lines phrase)
  ∧ find_lines_after_colon_from_lines lines (Str.lower phrase)
    = find_lines_after_colon_from_lines lines phrase.
Proof.
  rewrite !find_lines_after_colon_spec. split_and!.
  - apply sublist_filter.
  - apply Forall_forall. intros line [Hm _]%list_elem_of_filter.
    unfold Spec.reverse_match, Str.contains in *.
    destruct (Str.split_once "::" line) as [[? ?]|]; [|done].
    apply bool_decide_eq_true. eauto.
  - apply list_filter_iff. intros line. unfold Spec.reverse_match.
    by rewrite lower_idemp.
Qed.

(** * More about the response *)

Lemma remove_phonetics_cons (c : ascii) (r : string) :
  Char.eqb "/" c = false →
  remove_phonetics (String c r) = String c (remove_phonetics r).
Proof.
  intros Hc. unfold remove_phonetics, Re.sub, phonetics_pattern.
  cbn [Re.sub_from Re.match_at Re.lit]. by rewrite Hc.
Qed.

Lemma remove_phonetics_app_plain (p x : string) :
  Spec.no_slash p → remove_phonetics (p +:+ x) = p +:+ remove_phonetics x.
Proof.
  induction p as [|c p IH]; [done|]. intros [Hc Hp]%no_slash_cons.
  by rewrite !app_cons_s, remove_phonetics_cons, IH.
Qed.

Lemma remove_extra_spaces_app_plain (p x : string) :
  all_in (λ c, negb (Char.eqb "}" c)) p = true →
  remove_extra_spaces (p +:+ x) = p +:+ remove_extra_spaces x.
Proof.
  induction p as [|c p IH]; [done|]. cbn [all_in].
  intros [Hc%negb_true_iff Hp]%andb_prop.
  by rewrite !app_cons_s, remove_extra_spaces_cons, Hc, IH.
Qed.

Lemma rstrip_app_keep (p z : string) :
  Str.rstrip p = p → p ≠ "" → ∃ y, Str.rstrip (p +:+ z) = p +:+ y.
Proof.
  induction p as [|c p IH]; [done|]. intros Hp _.
  rewrite app_cons_s. cbn [Str.rstrip].
  destruct p as [|d p].
  - rewrite app_nil_l_s. cbn in Hp.
    destruct (Char.isspace c) eqn:Ec; [done|].
    destruct (Str.rstrip z) as [|e z']; [by exists ""|by exists (String e z')].
  - destruct IH as [y ->]; [by apply (rstrip_tail c)|done|].
    rewrite app_cons_s. by exists y.
Qed.

(** A cleaned result keeps the label it was given, short of the space
    that ends it. *)
Lemma clean_result_label (label x : string) :
  label = "EN -> FR:" ∨ label = "FR -> EN:" →
  Str.startswith (clean_result (label +:+ " " +:+ x)) label = true.
Proof.
  intros Hlabel. unfold clean_result.
  assert (remove_phonetics (remove_extra_spaces (label +:+ " " +:+ x))
          = label +:+ " " +:+ remove_phonetics (remove_extra_spaces x)) as ->.
  { rewrite <-!app_assoc_s.
    rewrite remove_extra_spaces_app_plain, remove_phonetics_app_plain;
      [done| |]; by destruct Hlabel as [-> | ->]. }
  unfold Str.strip.
  assert (Str.lstrip (label +:+ " " +:+ remove_phonetics (remove_extra_spaces x))
          = label +:+ " " +:+ remove_phonetics (remove_extra_spaces x)) as ->.
  { by destruct Hlabel as [-> | ->]. }
  destruct (rstrip_app_keep label
              (" " +:+ remove_phonetics (remove_extra_spaces x)))
    as [y ->]; [by destruct Hlabel as [-> | ->]..|].
  apply startswith_app.
Qed.

Section Response.

Context (EN_FR_LINES FR_EN_LINES : list string).
Context (lemmatize : string → pos → result string).
Context (nlp : string → result (list string)).
Context (order : set_order).

(** X18: an answer gives back the word as it was sent and as it was
    cleaned; its translations are never empty and hold no string twice:
    they are the one string "Translation not found." when the search has
    found nothing, and the normalised results of the search otherwise. *)
Theorem translate_word_api_answer (word : string) (r : response) :
  translate_word_api EN_FR_LINES FR_EN_LINES lemmatize nlp order word = Ok r →
  input_word r = word
  ∧ cleaned_word r = clean_input word
  ∧ translations r ≠ []
  ∧ NoDup (translations r)
  ∧ ∃ results,
      search_results EN_FR_LINES FR_EN_LINES lemmatize nlp order
        (clean_input word) = Ok results
      ∧ translations r = match results with
                         | [] => ["Translation not found."]
                         | _ :: _ => normalize results
                         end.
Proof.
  unfold translate_word_api.
  destruct (search_results _ _ _ _ _ _) as [results|]; [|done].
  cbn. intros [= <-]. cbn. split_and!; [done..| | |].
  - case_bool_decide; done.
  - case_bool_decide; [apply NoDup_singleton|].
    rewrite normalize_first_occurrences. apply first_occurrences_NoDup.
  - exists results. split; [done|].
    case_bool_decide as Hn; [by apply normalize_nil in Hn as ->|].
    destruct results; [done|done].
Qed.

Lemma comes_from_label (cleaned_word line res : string) :
  comes_from EN_FR_LINES FR_EN_LINES cleaned_word line res →
  ∃ label x, (label = "EN -> FR:" ∨ label = "FR -> EN:")
             ∧ res = label +:+ " " +:+ x.
Proof.
  intros [w l _|w l _|direction l [-> | ->] _ _].
  - by exists "EN -> FR:", l; split; [left|].
  - by exists "FR -> EN:", l; split; [right|].
  - by exists "EN -> FR:", (Spec.swap_sides l); split; [left|].
  - by exists "FR -> EN:", (Spec.swap_sides l); split; [right|].
Qed.

(** X19: every translation of an answer is "Translation not found." or
    begins with one of the two direction labels. *)
Theorem translate_word_api_labels (word : string) (r : response) :
  translate_word_api EN_FR_LINES FR_EN_LINES lemmatize nlp order word = Ok r →
  Forall (λ t, t = "Translation not found."
               ∨ Str.startswith t "EN -> FR:" = true
               ∨ Str.startswith t "FR -> EN:" = true) (translations r).
Proof.
  unfold translate_word_api, search_results.
  destruct (forward_results _ _ _ _ _ _) as [forward|] eqn:Ef; [|done].
  cbn. intros [= <-]. cbn.
  case_bool_decide; [repeat constructor|].
  apply Forall_forall. intros t Ht.
  rewrite normalize_first_occurrences in Ht.
  apply first_occurrences_elem in Ht as [(res & -> & Hres)%list_elem_of_fmap _].
  assert (∃ line, comes_from EN_FR_LINES FR_EN_LINES (clean_input word) line res)
    as [line (label & x & Hlabel & ->)%comes_from_label].
  { apply forward_results_passed in Ef.
    pose proof (reverse_search_passed EN_FR_LINES FR_EN_LINES
                  (clean_input word)) as Hrev.
    case_bool_decide; [subst forward; cbn in Hres|].
    - destruct (proj1 (Forall_forall _ _) Hrev _ Hres) as (l & ? & _). eauto.
    - destruct (proj1 (Forall_forall _ _) Ef _ Hres) as (l & ? & _). eauto. }
  right. pose proof (clean_result_label label x Hlabel).
  destruct Hlabel as [-> | ->]; auto.
Qed.

(** ** When the lemmatizers add nothing *)

Lemma lemma_matches_nothing_new (label : string) (results matches : list string) :
  (∀ line, line ∈ matches → translation_has_letters line →
           label +:+ line ∈ results) →
  lemma_matches label results matches = results.
Proof.
  unfold lemma_matches. induction matches as [|line matches IH]; [done|].
  intros Hall. cbn [foldl].
  destruct (translation_has_letters line) eqn:E.
  - rewrite bool_decide_true.
    + apply IH. intros l ?. apply Hall. by right.
    + apply Hall; [by left|by rewrite E].
  - apply IH. intros l ?. apply Hall. by right.
Qed.

Lemma iterate_singleton (x : string) : iterate order {[x]} = [x].
Proof.
  apply Permutation_singleton_r. rewrite iterate_perm.
  by rewrite elements_singleton.
Qed.

(** X20: when both lemmatizers give back the cleaned word itself (or
    spaCy an empty document), the lemma passes add nothing: the results
    before the reverse search are the direct matches. *)
Theorem forward_results_without_lemmas (cleaned_word : string)
    (doc : list string) :
  lemmatize cleaned_word NOUN = Ok cleaned_word →
  lemmatize cleaned_word VERB = Ok cleaned_word →
  nlp cleaned_word = Ok doc →
  doc = [] ∨ head doc = Some cleaned_word →
  forward_results EN_FR_LINES FR_EN_LINES lemmatize nlp order cleaned_word
  = Ok (direct_results EN_FR_LINES FR_EN_LINES cleaned_word).
Proof.
  intros Hnoun Hverb Hnlp Hdoc.
  unfold forward_results, lemma_results, lemmatize_word_english,
    lemmatize_word_french.
  rewrite Hnoun, Hverb, Hnlp. cbn.
  assert (match doc with lemma_ :: _ => lemma_ | [] => cleaned_word end
          = cleaned_word) as ->.
  { destruct Hdoc as [->|Hd]; [done|]. destruct doc; by simplify_eq/=. }
  assert (({[cleaned_word; cleaned_word; cleaned_word]} : gset string)
          = {[cleaned_word]}) as -> by set_solver.
  assert (({[cleaned_word; cleaned_word]} : gset string)
          = {[cleaned_word]}) as -> by set_solver.
  unfold lemmatized_pass. rewrite iterate_singleton. cbn [foldl].
  f_equal. unfold direct_results. rewrite !direct_matches_spec. cbn [app].
  rewrite (lemma_matches_nothing_new "EN -> FR: ").
  - apply lemma_matches_nothing_new. intros line Hin Hlet.
    apply elem_of_app. right. apply list_elem_of_fmap.
    exists line. split; [done|]. by apply list_elem_of_filter.
  - intros line Hin Hlet. apply elem_of_app. left. apply list_elem_of_fmap.
    exists line. split; [done|]. by apply list_elem_of_filter.
Qed.

(** X21: when the direct and lemma passes find nothing and no line of
    either file holds the cleaned word after its "::" with letters there,
    the answer is the one string "Translation not found.". *)
Theorem translate_word_api_not_found (word : string) :
  forward_results EN_FR_LINES FR_EN_LINES lemmatize nlp order
    (clean_input word) = Ok [] →
  Forall (λ line, ¬ (Spec.reverse_match (clean_input word) line
                     ∧ Spec.letters_after_colon line))
    (EN_FR_LINES ++ FR_EN_LINES) →
  translate_word_api EN_FR_LINES FR_EN_LINES lemmatize nlp order word
  = Ok {| input_word := word; cleaned_word := clean_input word;
          translations := ["Translation not found."] |}.
Proof.
  intros Hforward Hnone.
  assert (reverse_search EN_FR_LINES FR_EN_LINES (clean_input word) = [])
    as Hrev; [|unfold translate_word_api, search_results;
               by rewrite Hforward; cbn [mbind result_bind app];
                  rewrite Hrev].
  rewrite reverse_search_spec. unfold Spec.reverse_fallback.
  assert (filter (λ line, Spec.letters_after_colon line)
            (filter (λ line, Spec.reverse_match (clean_input word) line)
               (EN_FR_LINES ++ FR_EN_LINES)) = []) as ->; [|done].
  induction Hnone as [|line lines Hline _ IH]; [done|].
  destruct (decide (Spec.reverse_match (clean_input word) line)) as [Hm|Hm].
  - rewrite (filter_cons_True (λ l, Is_true (Spec.reverse_match _ l))) by done.
    rewrite filter_cons_False; [done|]. intros ?. by apply Hline.
  - by rewrite (filter_cons_False (λ l, Is_true (Spec.reverse_match _ l))).
Qed.

End Response.

Lemma translate_word_api_answer_witness :
  input_word
    {| input_word := "to eat"; cleaned_word := "eat";
       translations := ["EN -> FR: eat {v}  :: manger"] |} = "to eat"
  ∧ cleaned_word
      {| input_word := "to eat"; cleaned_word := "eat";
         translations := ["EN -> FR: eat {v}  :: manger"] |}
    = clean_input "to eat"
  ∧ translations
      {| input_word := "to eat"; cleaned_word := "eat";
         translations := ["EN -> FR: eat {v}  :: manger"] |} ≠ []
  ∧ NoDup
      (translations
         {| input_word := "to eat"; cleaned_word := "eat";
            translations := ["EN -> FR: eat {v}  :: manger"] |})
  ∧ ∃ results,
      search_results en_fr_sample fr_en_sample lemmatize_same nlp_same
        elements_order (clean_input "to eat") = Ok results
      ∧ translations
          {| input_word := "to eat"; cleaned_word := "eat";
             translations := ["EN -> FR: eat {v}  :: manger"] |}
        = match results with
          | [] => ["Translation not found."]
          | _ :: _ => normalize results
          end.
Proof.
  apply (translate_word_api_answer en_fr_sample fr_en_sample
           lemmatize_same nlp_same elements_order "to eat").
  by vm_compute.
Defined.

Lemma translate_word_api_labels_witness :
  Forall (λ t, t = "Translation not found."
               ∨ Str.startswith t "EN -> FR:" = true
               ∨ Str.startswith t "FR -> EN:" = true)
    (translations
       {| input_word := "l'"; cleaned_word := "";
          translations :=
            ["EN -> FR: manger :: eat {v}"; "EN -> FR: to eat :: manger {v}";
             "EN -> FR: apple :: pomme {f}"] |}).
Proof.
  apply (translate_word_api_labels en_fr_sample fr_en_sample
           lemmatize_same nlp_same elements_order "l'").
  by vm_compute.
Defined.

Lemma forward_results_without_lemmas_witness :
  forward_results en_fr_sample fr_en_sample lemmatize_same nlp_same
    elements_order "eat"
  = Ok (direct_results en_fr_sample fr_en_sample "eat").
Proof.
  apply (forward_results_without_lemmas en_fr_sample fr_en_sample
           lemmatize_same nlp_same elements_order "eat" ["eat"]).
  - reflexivity.
  - reflexivity.
  - reflexivity.
  - right. reflexivity.
Defined.

Lemma translate_word_api_not_found_witness :
  translate_word_api en_fr_sample fr_en_sample lemmatize_same nlp_same
    elements_order "le Zebre"
  = Ok {| input_word := "le Zebre"; cleaned_word := clean_input "le Zebre";
          translations := ["Translation not found."] |}.
Proof.
  apply (translate_word_api_not_found en_fr_sample fr_en_sample
           lemmatize_same nlp_same elements_order "le Zebre").
  - by vm_compute.
  - repeat (constructor; [by vm_compute; intros [[] _] || intros [_ []]|]).
    constructor.
Defined.

(** ** The letters filter on a well-formed line *)

Lemma split_once_first_colon (before after : string) :
  Str.existsb (Ascii.eqb ":") before = false →
  Str.split_once "::" (before +:+ "::" +:+ after) = Some (before, after).
Proof.
  induction before as [|c before IH].
  { intros _. rewrite app_nil_l_s.
    change ("::" +:+ after) with (String ":" (String ":" after)).
    rewrite split_once_unfold. cbn. by rewrite startswith_empty. }
  cbn [Str.existsb]. intros [Hc Hb]%orb_false_elim.
  rewrite app_cons_s, split_once_unfold, IH by done.
  cbn [Str.startswith]. unfold Char.eqb. by rewrite Hc.
Qed.

(** X22: on a line whose headword side holds no colon, the letters
    filter looks at the translation side alone: the line passes exactly
    when an ASCII letter stands somewhere after the "::". *)
Theorem translation_has_letters_translation_side (before after : string) :
  Str.existsb (Ascii.eqb ":") before = false →
  translation_has_letters (before +:+ "::" +:+ after)
  = Str.existsb Char.is_ascii_letter after.
Proof.
  intros Hb. apply (translation_has_letters_split _ before).
  by apply split_once_first_colon.
Qed.

Lemma translation_has_letters_translation_side_witness :
  translation_has_letters ("cat {n} " +:+ "::" +:+ " 123 (?)")
  = Str.existsb Char.is_ascii_letter " 123 (?)".
Proof.
  apply (translation_has_letters_translation_side "cat {n} " " 123 (?)").
  reflexivity.
Defined.

(** * Normalising twice *)

(** ** The scan finds the annotations *)

Lemma annotated_filled (b c : string) :
  Spec.no_slash b → annotated true true (b +:+ String "/" c) = true.
Proof.
  induction b as [|x b IH].
  - intros _. rewrite app_nil_l_s. cbn [annotated].
    by change (Char.eqb "/" "/") with true.
  - intros [Hx Hb]%no_slash_cons. rewrite app_cons_s. cbn [annotated].
    rewrite Hx. by apply IH.
Qed.

Lemma annotated_complete (s : string) (opened filled : bool) :
  has_annotation s → annotated opened filled s = true.
Proof.
  intros (a & b & c & -> & Hne & Hb). revert opened filled.
  induction a as [|x a IH]; intros opened filled.
  - rewrite app_nil_l_s. cbn [annotated].
    change (Char.eqb "/" "/") with true. cbn iota.
    destruct b as [|y b]; [done|]. apply no_slash_cons in Hb as [Hy Hb].
    rewrite app_cons_s. cbn [annotated]. rewrite Hy.
    rewrite (annotated_filled b c Hb). apply orb_true_r.
  - rewrite app_cons_s. cbn [annotated].
    destruct (Char.eqb "/" x); [|apply IH]. rewrite IH. apply orb_true_r.
Qed.

Lemma has_annotation_cons (x : ascii) (s : string) :
  has_annotation s → has_annotation (String x s).
Proof.
  intros (a & b & c & -> & ? & ?). by exists (String x a), b, c.
Qed.

Lemma annotated_sound (s : string) (opened filled : bool) :
  annotated opened filled s = true →
  has_annotation s
  ∨ (opened = true
     ∧ ∃ b c, s = b +:+ String "/" c ∧ Spec.no_slash b
              ∧ (filled = true ∨ b ≠ "")).
Proof.
  revert opened filled. induction s as [|x s IH]; intros opened filled; [done|].
  cbn [annotated]. destruct (Char.eqb "/" x) eqn:Ex.
  - apply char_eqb_eq in Ex as <-.
    intros [[-> ->]%andb_prop|Hs]%orb_prop.
    { right. split; [done|]. exists "", s. split_and!; [done..|by left]. }
    apply IH in Hs as [Hs|(_ & b & c & -> & Hb & [?|Hne])]; [|done|].
    + left. by apply has_annotation_cons.
    + left. by exists "", b, c.
  - intros [Hs|(-> & b & c & -> & Hb & _)]%IH.
    + left. by apply has_annotation_cons.
    + right. split; [done|]. exists (String x b), c.
      split_and!; [done|by apply no_slash_cons|by right].
Qed.

Lemma annotated_spec (s : string) :
  annotated false false s = true ↔ has_annotation s.
Proof.
  split; [|apply annotated_complete].
  by intros [?|[? _]]%annotated_sound.
Qed.

(** ** Neither trimming nor the collapse of whitespace makes one *)

Lemma space_not_slash (c : ascii) :
  Char.isspace c = true → Char.eqb "/" c = false.
Proof.
  intros Hc. destruct (Char.eqb "/" c) eqn:Ec; [|done].
  apply char_eqb_eq in Ec as <-. done.
Qed.

Lemma annotated_lstrip (s : string) (opened : bool) :
  annotated opened opened (Str.lstrip s) = annotated opened opened s.
Proof.
  induction s as [|c s IH]; [done|]. cbn [Str.lstrip].
  destruct (Char.isspace c) eqn:Ec; [|done].
  cbn [annotated]. by rewrite (space_not_slash c Ec).
Qed.

Lemma annotated_rstrip (s : string) (opened filled : bool) :
  annotated opened filled (Str.rstrip s) = annotated opened filled s.
Proof.
  revert opened filled. induction s as [|c s IH]; intros opened filled; [done|].
  cbn [Str.rstrip annotated].
  destruct (Str.rstrip s) as [|d s'] eqn:Es.
  - rewrite <-!IH. cbn [annotated].
    destruct (Char.isspace c) eqn:Ec.
    + by rewrite (space_not_slash c Ec).
    + cbn [annotated]. by destruct (Char.eqb "/" c).
  - cbn [annotated]. by rewrite <-!IH.
Qed.

Lemma annotated_remove_extra_spaces (s : string) (opened filled : bool) :
  annotated opened filled (remove_extra_spaces s) = annotated opened filled s.
Proof.
  revert opened filled. induction s as [s IH] using string_length_ind.
  intros opened filled. destruct s as [|c r]; [done|].
  rewrite remove_extra_spaces_cons.
  destruct (Char.eqb "}" c) eqn:Ec; cbn [andb].
  - apply char_eqb_eq in Ec as <-.
    destruct (space_first r) eqn:Er.
    + change ("} " +:+ ?x) with (String "}" (String " " x)).
      cbn [annotated]. change (Char.eqb "/" "}") with false.
      change (Char.eqb "/" " ") with false. cbn iota.
      rewrite IH, annotated_lstrip; [done|].
      pose proof (length_lstrip r). cbn. lia.
    + cbn [annotated]. change (Char.eqb "/" "}") with false. cbn iota.
      apply IH. cbn. lia.
  - cbn [annotated]. destruct (Char.eqb "/" c); rewrite IH; [done| |done|];
      cbn; lia.
Qed.

Lemma clean_keeps_plain (s : string) :
  ¬ has_annotation s → ¬ has_annotation (Str.strip (remove_extra_spaces s)).
Proof.
  rewrite <-!annotated_spec. unfold Str.strip.
  by rewrite annotated_rstrip, annotated_lstrip,
    annotated_remove_extra_spaces.
Qed.

Lemma remove_phonetics_plain (s : string) :
  ¬ has_annotation s → remove_phonetics s = s.
Proof.
  rewrite <-search_phonetics. intros Hnone. apply sub_no_match.
  destruct (Re.search phonetics_pattern s); [|done]. by destruct Hnone.
Qed.

(** Where there is no annotation, a cleaned text is clean. *)
Lemma clean_result_plain (s : string) :
  ¬ has_annotation s → clean_result (clean_result s) = clean_result s.
Proof.
  intros Hs. unfold clean_result.
  assert (¬ has_annotation (remove_extra_spaces s)) as Hres.
  { rewrite <-annotated_spec in *.
    by rewrite annotated_remove_extra_spaces. }
  rewrite (remove_phonetics_plain (remove_extra_spaces s)) by done.
  rewrite (remove_extra_spaces_fixed (Str.strip _))
    by apply tidy_strip, remove_extra_spaces_tidy.
  rewrite remove_phonetics_plain by by apply clean_keeps_plain.
  apply strip_idemp.
Qed.

(** C5, where it holds: on results that hold no phonetic annotation,
    normalising twice gives what normalising once gives. *)
Theorem normalize_idempotent_without_annotation (results : list string) :
  Forall (λ res, ¬ has_annotation res) results →
  normalize (normalize results) = normalize results.
Proof.
  intros Hres. unfold normalize at 1 3.
  destruct (normalize_loop_adds results ∅ []) as (added & Hadded & Hnd & Hadd).
  unfold normalize. rewrite Hadded. cbn [app].
  rewrite normalize_loop_fixed; [done..|].
  intros y Hy. destruct (Hadd y Hy) as (_ & res & Hin & ->).
  split; [|apply not_elem_of_empty].
  apply clean_result_plain. by eapply Forall_forall in Hres.
Qed.

Lemma normalize_idempotent_without_annotation_witness :
  normalize
    (normalize
       ["EN -> FR: and/or {conj}   :: et "; "EN -> FR: and/or {conj} :: et";
        "FR -> EN: lien {m} :: http://"])
  = normalize
      ["EN -> FR: and/or {conj}   :: et "; "EN -> FR: and/or {conj} :: et";
       "FR -> EN: lien {m} :: http://"].
Proof.
  apply (normalize_idempotent_without_annotation
           ["EN -> FR: and/or {conj}   :: et ";
            "EN -> FR: and/or {conj} :: et";
            "FR -> EN: lien {m} :: http://"]).
  repeat (constructor; [by rewrite <-annotated_spec; vm_compute|]).
  constructor.
Defined.

(** C5 as stated fails: removing one annotation can bring two slashes
    together around what stood after it, and these make an annotation for
    the next pass to remove.  The collapse of whitespace plays no part:
    it leaves both texts as they are. *)
Lemma normalize_not_idempotent :
  normalize link_results = ["EN -> FR: site {n} :: http:/b/c"]
  ∧ normalize (normalize link_results) = ["EN -> FR: site {n} :: http:c"]
  ∧ normalize (normalize link_results) ≠ normalize link_results
  ∧ remove_extra_spaces <$> link_results = link_results
  ∧ remove_extra_spaces <$> normalize link_results = normalize link_results.
Proof. by vm_compute. Qed.

(** * Redirects *)

(** ** The redirect pattern *)

Lemma eqb_ci_colon (c : ascii) : Char.eqb_ci ":" c = Char.eqb ":" c.
Proof. destruct c as [[] [] [] [] [] [] [] []]; by vm_compute. Qed.

Lemma eqb_ci_lower (a c : ascii) :
  Char.eqb_ci a c = Char.eqb (Char.lower a) (Char.lower c).
Proof. done. Qed.

(** The tail [\s*::] of the redirect pattern. *)
Local Abbreviation colon_tail :=
  (Re.match_at [Re.Atom Char.isspace Re.Star; Re.lit_ci ":"%char;
                Re.lit_ci ":"%char]).

Lemma colons_start (s : string) :
  is_Some (Re.match_at [Re.lit_ci ":"%char; Re.lit_ci ":"%char] s)
  ↔ Str.startswith s "::" = true.
Proof.
  assert (∀ A, is_Some (@None A) ↔ false = true) as Hnone.
  { intros A. split; [by intros [? ?]|done]. }
  unfold Re.lit_ci. destruct s as [|c [|d r]]; cbn [Re.match_at Str.startswith].
  - apply Hnone.
  - rewrite eqb_ci_colon. destruct (Char.eqb ":" c); apply Hnone.
  - rewrite !eqb_ci_colon.
    destruct (Char.eqb ":" c), (Char.eqb ":" d); cbn; try apply Hnone.
    rewrite startswith_empty. split; [done|by eexists].
Qed.

Lemma split_once_colons_cons (c : ascii) (r : string) :
  Str.startswith (String c r) "::" = false →
  Str.split_once "::" (String c r)
  = match Str.split_once "::" r with
    | Some (a, b) => Some (String c a, b)
    | None => None
    end.
Proof. intros H. by rewrite split_once_unfold, H. Qed.

Lemma space_not_colons (c : ascii) (r : string) :
  Char.isspace c = true → Str.startswith (String c r) "::" = false.
Proof.
  intros Hc. cbn [Str.startswith].
  destruct (Char.eqb ":" c) eqn:Ec; [|done].
  apply char_eqb_eq in Ec as <-. done.
Qed.

Lemma colon_tail_some (s : string) (m : Re.matched) :
  colon_tail s = Some m →
  ∃ ws after, Str.split_once "::" s = Some (ws, after) ∧ Str.lstrip ws = "".
Proof.
  revert m. induction s as [|c r IH]; intros m; [done|].
  destruct (Str.startswith (String c r) "::") eqn:Es.
  { intros _. rewrite split_once_unfold, Es. by eexists "", _. }
  cbn [Re.match_at Re.greedy].
  assert (Re.match_at [Re.lit_ci ":"%char; Re.lit_ci ":"%char] (String c r)
          = None) as Hk.
  { destruct (Re.match_at _ (String c r)) eqn:E; [|done].
    assert (Str.startswith (String c r) "::" = true); [|congruence].
    apply colons_start. by rewrite E. }
  unfold Re.lit_ci in *. cbn [Re.match_at] in Hk. rewrite Hk. cbn [Re.piece].
  destruct (Char.isspace c) eqn:Ec; [|done].
  destruct (Re.greedy _ _ r) as [m'|] eqn:Eg; [|done].
  intros _. destruct (IH m') as (ws & after & Hs & Hws); [done|].
  rewrite split_once_colons_cons, Hs by done.
  exists (String c ws), after. split; [done|]. by apply lstrip_spaces_cons.
Qed.

Lemma colon_tail_none (c : ascii) (r : string) :
  colon_tail (String c r) = None →
  Str.startswith (String c r) "::" = false
  ∧ (Char.isspace c = true → colon_tail r = None).
Proof.
  intros Hnone. split.
  - destruct (Str.startswith (String c r) "::") eqn:Es; [|done].
    apply colons_start in Es as [m Hm].
    cbn [Re.match_at Re.greedy] in Hnone. unfold Re.lit_ci in *.
    cbn [Re.match_at] in Hm. rewrite Hm in Hnone.
    destruct (Char.isspace c); [|by destruct m].
    destruct (Re.greedy _ _ r) as [[[|p ps] rest]|] eqn:Eg;
      [by apply greedy_pieces in Eg|done|by destruct m].
  - intros Hc. cbn [Re.match_at Re.greedy] in Hnone. rewrite Hc in Hnone.
    cbn [Re.match_at].
    destruct (Re.greedy _ _ r) as [[[|p ps] rest]|] eqn:Eg; [|done..].
    by apply greedy_pieces in Eg.
Qed.

(** On a line, the lazy group stops at the text before the first [::],
    short of the whitespace that ends it; without a [::] nothing
    matches. *)
Lemma lazy_phrase (s : string) :
  Spec.is_line s →
  match Re.lazy Char.dot colon_tail s with
  | Some m =>
      ∃ before after ws,
        Str.split_once "::" s = Some (before, after)
        ∧ before = Re.group 0 m +:+ ws ∧ Str.lstrip ws = ""
  | None => Str.split_once "::" s = None
  end.
Proof.
  induction s as [|c r IH]; [done|].
  intros [Hc Hr]%is_line_cons. specialize (IH Hr). cbn [Re.lazy].
  destruct (colon_tail (String c r)) as [[ps rest]|] eqn:Ek.
  { apply colon_tail_some in Ek as (ws & after & Hs & Hws).
    exists ws, after, ws. by rewrite Hs. }
  apply colon_tail_none in Ek as [Hb _].
  rewrite Hc, split_once_colons_cons by done.
  destruct (Re.lazy Char.dot _ r) as [[ps rest]|] eqn:El.
  - destruct ps as [|p ps]; [by apply lazy_pieces in El|].
    destruct IH as (before & after & ws & -> & -> & Hws).
    by exists (String c p +:+ ws), after, ws.
  - by rewrite IH.
Qed.

(** What follows [SEE:] in the pattern: [\s*(.*?)\s*::]. *)
Local Abbreviation see_tail :=
  (Re.match_at [Re.Atom Char.isspace Re.Star; Re.Atom Char.dot Re.LazyStar;
                Re.Atom Char.isspace Re.Star; Re.lit_ci ":"%char;
                Re.lit_ci ":"%char]).

(** On a line, the group of the pattern is, but for whitespace at its
    ends, the text before the first [::]. *)
Lemma see_tail_spec (s : string) :
  Spec.is_line s →
  match see_tail s with
  | Some m =>
      ∃ phrase after,
        Str.split_once "::" s = Some (phrase, after)
        ∧ Str.strip (Re.group 1 m) = Str.strip phrase
  | None => Str.split_once "::" s = None
  end.
Proof.
  induction s as [|c r IH]; [done|].
  intros Hs. pose proof Hs as [Hc Hr]%is_line_cons. specialize (IH Hr).
  pose proof (lazy_phrase _ Hs) as Hlazy.
  cbn [Re.match_at Re.greedy] in *.
  destruct (Char.isspace c) eqn:Ec.
  - destruct (Re.greedy _ _ r) as [[[|p ps] rest]|] eqn:Eg.
    + by apply greedy_pieces in Eg.
    + destruct IH as (phrase & after & Hsplit & Hstrip). cbn [Re.grow].
      exists (String c phrase), after.
      rewrite split_once_colons_cons, Hsplit by by apply space_not_colons.
      split; [done|]. unfold Str.strip in *. cbn [Str.lstrip].
      by rewrite Ec.
    + rewrite split_once_colons_cons, IH in * by by apply space_not_colons.
      destruct (Re.lazy _ _ (String c r)) as [m|]; [|done].
      by destruct Hlazy as (? & ? & ? & ? & _).
  - destruct (Re.lazy _ _ (String c r)) as [[ps rest]|]; [|done].
    destruct Hlazy as (before & after & ws & -> & -> & Hws).
    exists (Re.group 0 (ps, rest) +:+ ws), after. split; [done|].
    by rewrite strip_app_spaces.
Qed.

Lemma match_at_lit_ci (a : ascii) (p : Re.regex) (s : string) :
  Re.match_at (Re.lit_ci a :: p) s
  = match s with
    | String c r =>
        if Char.eqb (Char.lower a) (Char.lower c)
        then Re.piece (String c "") (Re.match_at p r)
        else None
    | "" => None
    end.
Proof. by destruct s. Qed.

(** The pattern matches at the start of a text that begins with "see:" in
    whatever case, if its tail matches what follows. *)
Lemma match_at_see (s : string) :
  match Re.match_at see_pattern s with
  | Some m =>
      Str.startswith (Str.lower s) "see:" = true
      ∧ ∃ m', see_tail (Str.skip 4 s) = Some m'
              ∧ Re.group 5 m = Re.group 1 m'
  | None =>
      Str.startswith (Str.lower s) "see:" = false
      ∨ see_tail (Str.skip 4 s) = None
  end.
Proof.
  unfold see_pattern.
  set (tail := [Re.Atom Char.isspace Re.Star; Re.Atom Char.dot Re.LazyStar;
                Re.Atom Char.isspace Re.Star; Re.lit_ci ":"%char;
                Re.lit_ci ":"%char]).
  destruct s as [|c1 [|c2 [|c3 [|c4 r]]]];
    rewrite ?match_at_lit_ci; cbn [Str.lower Str.startswith Str.skip].
  1-4: rewrite ?andb_false_r;
    repeat (destruct (Char.eqb _ _); cbn [Re.piece]); by left.
  change (Char.lower "S") with "s"%char.
  change (Char.lower "E") with "e"%char.
  change (Char.lower ":") with ":"%char.
  destruct (Char.eqb "s" (Char.lower c1)); [|by left].
  destruct (Char.eqb "e" (Char.lower c2)); [|by left].
  destruct (Char.eqb "e" (Char.lower c3)); [|by left].
  destruct (Char.eqb ":" (Char.lower c4)); [|by left].
  cbn [andb]. rewrite startswith_empty.
  destruct (Re.match_at tail r) as [[ps rest]|]; [|by right].
  cbn [Re.piece]. split; [done|]. by eexists.
Qed.

Lemma is_line_skip (n : nat) (s : string) :
  Spec.is_line s → Spec.is_line (Str.skip n s).
Proof.
  revert s. induction n as [|n IH]; intros [|c r]; try done.
  intros [_ Hr]%is_line_cons. by apply IH.
Qed.

Lemma split_once_none_tail (sep : string) (c : ascii) (r : string) :
  Str.split_once sep (String c r) = None → Str.split_once sep r = None.
Proof.
  rewrite split_once_unfold. destruct (Str.startswith _ sep); [done|].
  by destruct (Str.split_once sep r) as [[a b]|].
Qed.

Lemma skip_tail (n : nat) (c : ascii) (r : string) :
  Str.skip n r = Str.skip 1 (Str.skip n (String c r)).
Proof. by rewrite skip_skip, Nat.add_1_r. Qed.

(** Where no [::] comes after the first four characters, the pattern is
    found nowhere. *)
Lemma search_see_none (s : string) :
  Spec.is_line s → Str.split_once "::" (Str.skip 4 s) = None →
  Re.search see_pattern s = None.
Proof.
  induction s as [|c r IH]; [done|]. intros Hs Hnone. cbn [Re.search].
  pose proof (match_at_see (String c r)) as Hm.
  destruct (Re.match_at see_pattern (String c r)) as [m|].
  { destruct Hm as (_ & m' & Hm' & _).
    pose proof (see_tail_spec _ (is_line_skip 4 _ Hs)) as Ht.
    rewrite Hm' in Ht. destruct Ht as (? & ? & Ht & _). congruence. }
  apply IH; [by apply (is_line_cons c)|].
  rewrite (skip_tail 4 c r).
  destruct (Str.skip 4 (String c r)) as [|d t]; [done|].
  by apply (split_once_none_tail _ d).
Qed.

(** On a line, the phrase the code extracts is the phrase of the first
    redirect marker. *)
Lemma extract_see_reference_spec (line : string) :
  Spec.is_line line →
  extract_see_reference line
  = match Spec.after_marker line with
    | Some after =>
        match Str.split_once "::" after with
        | Some (phrase, _) => Some (Str.strip phrase)
        | None => None
        end
    | None => None
    end.
Proof.
  unfold extract_see_reference.
  induction line as [|c r IH]; [done|]. intros Hs.
  cbn [Re.search Spec.after_marker].
  pose proof (match_at_see (String c r)) as Hm.
  pose proof (see_tail_spec _ (is_line_skip 4 _ Hs)) as Ht.
  destruct (Re.match_at see_pattern (String c r)) as [m|].
  - destruct Hm as (-> & m' & Hm' & ->). rewrite Hm' in Ht.
    destruct Ht as (phrase & after & -> & ->). done.
  - destruct (Str.startswith (Str.lower (String c r)) "see:") eqn:Estart.
    + destruct Hm as [?|Hm]; [done|]. rewrite Hm in Ht. rewrite Ht.
      rewrite search_see_none; [done|by apply (is_line_cons c)|].
      rewrite (skip_tail 4 c r).
      destruct (Str.skip 4 (String c r)) as [|d t]; [done|].
      by apply (split_once_none_tail _ d).
    + apply IH. by apply (is_line_cons c).
Qed.

(** On a line, the test of the resolver and the phrase it follows are
    those of the specification. *)
Lemma see_target_spec (line : string) :
  Spec.is_line line → see_target line = Spec.redirect line.
Proof.
  intros Hs. unfold see_target, Spec.redirect.
  rewrite extract_see_reference_spec by done.
  destruct (Spec.after_marker line) as [after|]; [|done].
  by destruct (Str.split_once "::" after) as [[phrase ?]|].
Qed.

(** ** The resolver under the recursion limit *)

(** What the resolver with fuel gives, read as an outcome: a call for
    which the fuel does not last is one the recursion limit stops. *)
Definition outcome_of {A : Type} (r : option A) : outcome A :=
  match r with
  | Some a => Returned a
  | None => RecursionError
  end.

Section Limit.

Context (index : gmap string (list string)).

Implicit Types (visited : gset string) (bucket results : list string).

Lemma bucket_loop_limited
    (f : string → gset string → option (list string * gset string))
    (g : string → gset string → outcome (list string * gset string)) bucket :
  (∀ word visited, g word visited = outcome_of (f word visited)) →
  ∀ acc, foldl (expand_line_limited g) (outcome_of acc) bucket
         = outcome_of (foldl (expand_line f) acc bucket).
Proof.
  intros Hfg. induction bucket as [|line bucket IH]; intros acc; [done|].
  cbn [foldl]. rewrite <-IH. f_equal.
  destruct acc as [[results visited]|]; [|done]. cbn.
  destruct (see_target line) as [see_ref|]; [|done].
  rewrite Hfg. destruct (f see_ref visited) as [[recursed v1]|]; [|done].
  cbn. by repeat case_match.
Qed.

(** The depth the limit leaves is the fuel of the resolver. *)
Lemma find_lines_limited_fuel depth word visited :
  find_lines_limited depth index word visited
  = outcome_of (find_lines_fuel depth index word visited).
Proof.
  revert word visited. induction depth as [|depth IH]; intros word visited.
  { done. }
  cbn [find_lines_limited find_lines_fuel]. case_bool_decide; [done|].
  destruct (index !! Str.lower word) as [bucket|]; [|done].
  by apply (bucket_loop_limited _ _ bucket IH (Some _)).
Qed.

(** A call that returns under the limit returns what the resolver gives
    with the limit left out. *)
Lemma find_lines_limited_returned depth word visited r :
  find_lines_limited depth index word visited = Returned r →
  find_lines_in_index index word visited = Some r.
Proof.
  rewrite find_lines_limited_fuel.
  destruct (find_lines_fuel depth index word visited) as [r'|] eqn:Hr; [|done].
  intros [= ->]. pose proof (budget_le_size index visited) as Hb.
  destruct (find_lines_fuel_returns index (S (size index)) word visited)
    as (results & visited' & Hr' & _); [lia|].
  unfold find_lines_in_index. rewrite Hr'.
  pose proof (find_lines_fuel_mono index _ (depth `max` S (size index)) _ _ _
                Hr (Nat.le_max_l _ _)) as H1.
  pose proof (find_lines_fuel_mono index _ (depth `max` S (size index)) _ _ _
                Hr' (Nat.le_max_r _ _)) as H2.
  congruence.
Qed.

(** The loop over a bucket of lines follows the redirect policy. *)
Lemma bucket_loop_redirect
    (f : string → gset string → option (list string * gset string))
    (g : string → gset string → outcome (list string * gset string)) bucket :
  (∀ word visited, g word visited = outcome_of (f word visited)) →
  Forall Spec.is_line bucket →
  ∀ results visited r,
    foldl (expand_line f) (Some (results, visited)) bucket = Some r →
    ∃ added, r.1 = results ++ added ∧ Spec.splice_rule g bucket visited added r.2.
Proof.
  intros Hfg Hlines.
  induction Hlines as [|line bucket Hline Hlines IH]; intros results visited r.
  { intros [= <-]. exists []. split; [by rewrite app_nil_r|constructor]. }
  cbn [foldl]. unfold expand_line at 2.
  pose proof (see_target_spec line Hline) as Hspec.
  destruct (see_target line) as [see_ref|] eqn:Eline; last first.
  { intros (added & -> & ?)%IH. exists (line :: added).
    split; [by rewrite <-app_assoc|by constructor]. }
  pose proof (Hfg see_ref visited) as Hg.
  destruct (f see_ref visited) as [[recursed v1]|] eqn:Ef;
    [|by rewrite expand_line_none].
  cbn in Hg. case_bool_decide as Hne; cbn [andb].
  - destruct (Nat.leb_spec (length recursed) 2).
    + intros (added & -> & ?)%IH. exists (recursed ++ added).
      split; [by rewrite <-app_assoc|].
      eapply Spec.splice_resolved; [done..| |done].
      destruct recursed; [done|]. cbn in *. lia.
    + rewrite bool_decide_false by done.
      intros (added & -> & ?)%IH. exists added. split; [done|].
      by eapply Spec.splice_dropped.
  - assert (recursed = []) as -> by (by destruct recursed).
    rewrite bool_decide_true by done.
    intros (added & -> & ?)%IH. exists (line :: added).
    split; [by rewrite <-app_assoc|]. by eapply Spec.splice_fallback.
Qed.

(** C1: when the headword is new and its bucket holds lines, whatever the
    resolver returns is what the redirect policy gives over that bucket,
    with the resolver itself, one call deeper, on each phrase: a line
    without a redirect marker is kept; a redirect whose resolution has one
    or two lines is replaced by them; one whose resolution is empty is
    kept itself; one whose resolution has more than two lines contributes
    nothing.  And the resolver does return when the recursion limit
    leaves room for as many nested calls as the index has headwords. *)
Theorem find_lines_in_index_splice depth word visited bucket :
  Str.lower word ∉ visited →
  index !! Str.lower word = Some bucket →
  Forall Spec.is_line bucket →
  (∀ results visited',
     find_lines_limited (S depth) index word visited
     = Returned (results, visited') →
     Spec.splice_rule (find_lines_limited depth index) bucket
       ({[Str.lower word]} ∪ visited) results visited')
  ∧ (size index ≤ depth →
     ∃ results visited',
       find_lines_limited (S depth) index word visited
       = Returned (results, visited')).
Proof.
  intros Hnew Hbucket Hlines. split.
  - intros results visited'. rewrite find_lines_limited_fuel.
    destruct (find_lines_fuel (S depth) index word visited) as [r|] eqn:Hr;
      [|done].
    intros [= ->]. cbn [find_lines_fuel] in Hr.
    rewrite bool_decide_false, Hbucket in Hr by done.
    eapply bucket_loop_redirect in Hr as (added & Hadd & Hrule);
      [cbn in Hadd, Hrule; subst; exact Hrule| |done].
    apply find_lines_limited_fuel.
  - intros Hdepth. pose proof (budget_le_size index visited) as Hb.
    destruct (find_lines_fuel_returns index (S depth) word visited)
      as (results & visited' & Hr & _); [lia|].
    exists results, visited'. by rewrite find_lines_limited_fuel, Hr.
Qed.


End Limit.

(** Scenario 3 of the specification, through C1: the redirect of "apple"
    resolves to the one line of "fruit". *)
Lemma find_lines_in_index_splice_witness :
  (∀ results visited',
     find_lines_limited 3 (build_index scenario_3) "Apple" ∅
     = Returned (results, visited') →
     Spec.splice_rule (find_lines_limited 2 (build_index scenario_3))
       ["apple {} :: SEE: fruit ::"] ({["apple"]} ∪ ∅) results visited')
  ∧ (size (build_index scenario_3) ≤ 2 →
     ∃ results visited',
       find_lines_limited 3 (build_index scenario_3) "Apple" ∅
       = Returned (results, visited')).
Proof.
  apply (find_lines_in_index_splice (build_index scenario_3) 2 "Apple" ∅
           ["apple {} :: SEE: fruit ::"]).
  - apply not_elem_of_empty.
  - by vm_compute.
  - repeat constructor.
Defined.


(** * A chain of redirects *)


















(** The same on a chain of three: three levels do not reach its end, and
    a fourth returns its last line, the phrase of which has no bucket. *)
Example see_chain_three :
  see_chain 3
  = ["w {n} :: SEE: wx ::"; "wx {n} :: SEE: wxx ::"; "wxx {n} :: SEE: wxxx ::"]
  ∧ find_lines_limited 3 (build_index (see_chain 3)) "w" ∅ = RecursionError
  ∧ returned_lines (find_lines_limited 4 (build_index (see_chain 3)) "w" ∅)
    = Some ["wxx {n} :: SEE: wxxx ::"].
Proof. by vm_compute. Qed.
